(** * RiftBuilder: deck parser and deck-vs-inventory comparison

    A shallow embedding of [lib/deckParser.ts] and [lib/comparison.ts]
    and the properties of the specification that concern them.

    Conventions of the embedding:
    - a JavaScript string is the list of its UTF-16 code units ([list N]);
      [str] turns an ASCII literal into such a list;
    - the numbers the comparison engine computes with (card counts, owned
      counts, the threshold) are integers ([Z]); floating-point rounding
      of very large values is not modelled;
    - [Record<string, number>] is a finite map ([gmap]) from strings to
      integers; the properties an object inherits from [Object.prototype]
      ([constructor], [toString], [__proto__], ...) are not modelled, so
      that no card name is special;
    - a [throw] is the left injection of a sum, a normal return the right
      one. *)

From Stdlib Require Import ZArith NArith QArith Qround List String Ascii.
From Stdlib Require Import DecimalString Lia.
From stdpp Require Import base option list gmap.

Abbreviation jsstring := (list N) (only parsing).

(** ** Strings and the pieces of the ECMAScript library the code calls *)

Module Js.

Local Open Scope N_scope.

(** An ASCII literal as a sequence of code units. *)
Definition str (s : string) : jsstring :=
  List.map N_of_ascii (list_ascii_of_string s).

(** WhiteSpace and LineTerminator code points: what [String.prototype.trim]
    strips and what [\s] matches. *)
Definition is_white_space (c : N) : bool :=
  (c =? 9) || (c =? 10) || (c =? 11) || (c =? 12) || (c =? 13) ||
  (c =? 32) || (c =? 160) || (c =? 5760) ||
  ((8192 <=? c) && (c <=? 8202)) ||
  (c =? 8232) || (c =? 8233) || (c =? 8239) || (c =? 8287) ||
  (c =? 12288) || (c =? 65279).

(** LineTerminator code points: what [.] refuses to match. *)
Definition is_line_terminator (c : N) : bool :=
  (c =? 10) || (c =? 13) || (c =? 8232) || (c =? 8233).

(** [\d] *)
Definition is_digit (c : N) : bool := (48 <=? c) && (c <=? 57).

(** [String.prototype.trim] *)
Fixpoint trimStart (s : jsstring) : jsstring :=
  match s with
  | c :: s' => if is_white_space c then trimStart s' else s
  | [] => []
  end.

Definition trimEnd (s : jsstring) : jsstring := rev (trimStart (rev s)).

Definition trim (s : jsstring) : jsstring := trimEnd (trimStart s).

(** Truthiness of a string: [!line] holds of the empty string only. *)
Definition is_empty (s : jsstring) : bool :=
  match s with [] => true | _ :: _ => false end.

(** [text.split(/\r?\n/)]: the separator is a line feed, together with the
    carriage return that immediately precedes it, if any.  The result
    always has at least one element. *)
Definition cons_line (c : N) (ls : list jsstring) : list jsstring :=
  match ls with
  | l :: ls' => (c :: l) :: ls'
  | [] => [[c]]
  end.

Fixpoint split_lines (s : jsstring) : list jsstring :=
  match s with
  | [] => [[]]
  | c :: rest =>
      if c =? 10 then [] :: split_lines rest
      else
        match rest with
        | c' :: rest' =>
            if (c =? 13) && (c' =? 10) then [] :: split_lines rest'
            else cons_line c (split_lines rest)
        | [] => cons_line c (split_lines rest)
        end
  end.

(** Case folding of a regular expression with the [i] flag and without
    the [u] flag, against an ASCII pattern: a code unit of 128 or more is
    never identified with an ASCII one, so only [a]-[z] are folded. *)
Definition to_upper_ascii (c : N) : N :=
  if (97 <=? c) && (c <=? 122) then c - 32 else c.

Definition ci_eq (a b : N) : bool := to_upper_ascii a =? to_upper_ascii b.

Fixpoint ci_prefix (p s : jsstring) : bool :=
  match p, s with
  | [], _ => true
  | a :: p', b :: s' => ci_eq a b && ci_prefix p' s'
  | _ :: _, [] => false
  end.

(** [/^p$/i.test(s)] for a literal ASCII pattern [p]. *)
Definition ci_equal (p s : jsstring) : bool :=
  (N.of_nat (length p) =? N.of_nat (length s)) && ci_prefix p s.

(** [/p/i.test(s)] for a literal ASCII pattern [p]: some suffix of [s]
    starts with [p]. *)
Fixpoint ci_search (p s : jsstring) : bool :=
  ci_prefix p s ||
  match s with
  | [] => false
  | _ :: s' => ci_search p s'
  end.

(** The longest prefix whose elements satisfy [f], and the rest. *)
Fixpoint span (f : N -> bool) (s : jsstring) : jsstring * jsstring :=
  match s with
  | c :: s' =>
      if f c then let '(a, b) := span f s' in (c :: a, b) else ([], s)
  | [] => ([], [])
  end.

(** The three places where the code throws, each with [new Error(...)]. *)
Inductive Error :=
| ParseError (line : jsstring)
    (* `Unable to parse export line: ${line}` *)
| MissingDataError (deck : jsstring)
    (* `Deck ${deck} is missing both parsed data and exportText.` *)
| UnsupportedFormatError.
    (* "Unsupported inventory format. ..." *)

(** [Number(digits)] for a non-empty run of decimal digits. *)
Definition digit_value (c : N) : Z := Z.of_N (c - 48).

Definition decimal_value (ds : jsstring) : Z :=
  fold_left (fun acc d => (10 * acc + digit_value d)%Z) ds 0%Z.

End Js.

(** ** lib/deckParser.ts *)

Module DeckParser.

Import Js.

Record CardEntry := { count : Z; name : jsstring }.

Record DeckExport := {
  main : list CardEntry;
  battlefields : list CardEntry;
  runes : list CardEntry;
  sideboard : list CardEntry
}.

(** [keyof DeckExport] *)
Inductive DeckBucket := BMain | BBattlefields | BRunes | BSideboard.

(** [deck[bucket]] *)
Definition bucket_get (deck : DeckExport) (b : DeckBucket) : list CardEntry :=
  match b with
  | BMain => main deck
  | BBattlefields => battlefields deck
  | BRunes => runes deck
  | BSideboard => sideboard deck
  end.

(** [deck[bucket].push(entry)] *)
Definition bucket_push (b : DeckBucket) (entry : CardEntry) (deck : DeckExport)
  : DeckExport :=
  match b with
  | BMain =>
      {| main := main deck ++ [entry]; battlefields := battlefields deck;
         runes := runes deck; sideboard := sideboard deck |}
  | BBattlefields =>
      {| main := main deck; battlefields := battlefields deck ++ [entry];
         runes := runes deck; sideboard := sideboard deck |}
  | BRunes =>
      {| main := main deck; battlefields := battlefields deck;
         runes := runes deck ++ [entry]; sideboard := sideboard deck |}
  | BSideboard =>
      {| main := main deck; battlefields := battlefields deck;
         runes := runes deck; sideboard := sideboard deck ++ [entry] |}
  end.

Definition BATTLEFIELD_NAMES : gset jsstring :=
  list_to_set (List.map str [
    "Grove of the God-Willow";
    "Hallowed Tomb";
    "Monastery of Hirana";
    "Navori Fighting Pit";
    "Obelisk of Power";
    "Reaver's Row";
    "Reckoner's Arena";
    "Sigil of the Storm";
    "Startipped Peak";
    "Targon's Peak";
    "The Arena's Greatest";
    "The Candlelit Sanctum";
    "The Dreaming Tree";
    "The Grand Plaza";
    "Trifarian War Camp";
    "Vilemaw's Lair";
    "Void Gate";
    "Windswept Hillock";
    "Zaun Warrens"
  ]%string).

(** [line.match(/^(\d+)\s+(.+)$/)]: the two captured groups.  [\d+] takes
    the whole leading run of digits (giving one back would leave a digit
    for [\s+]).  [\s+] is greedy: it first takes the whole run of white
    space and then gives back one character at a time, until [.+] matches
    everything up to the end of the line. *)
Definition dot_plus_to_end (s : jsstring) : bool :=
  negb (is_empty s) && forallb (fun c => negb (is_line_terminator c)) s.

Fixpoint first_match (ws rest : jsstring) (giveback : list nat)
  : option jsstring :=
  match giveback with
  | [] => None
  | k :: ks =>
      let g2 := drop (length ws - k) ws ++ rest in
      if dot_plus_to_end g2 then Some g2 else first_match ws rest ks
  end.

Definition match_card_line (line : jsstring) : option (jsstring * jsstring) :=
  let '(ds, r1) := span is_digit line in
  if is_empty ds then None
  else
    let '(ws, rest) := span is_white_space r1 in
    match first_match ws rest (seq 0 (length ws)) with
    | Some g2 => Some (ds, g2)
    | None => None
    end.

Definition parseCardLine (line : jsstring) : Error + CardEntry :=
  match match_card_line line with
  | None => inl (ParseError line)
  | Some (g1, g2) => inr {| count := decimal_value g1; name := trim g2 |}
  end.

(** [/^Sideboard:?$/i.test(line)] *)
Definition is_sideboard_marker (line : jsstring) : bool :=
  ci_equal (str "Sideboard") line || ci_equal (str "Sideboard:") line.

(** [/Rune/i.test(name)] *)
Definition mentions_rune (nm : jsstring) : bool := ci_search (str "Rune") nm.

(** [BATTLEFIELD_NAMES.has(name)] *)
Definition is_battlefield (nm : jsstring) : bool :=
  bool_decide (nm ∈ BATTLEFIELD_NAMES).

(** One iteration of the [for] loop of [parseExportedDeck], on the state
    made of the deck under construction and the [section] variable. *)
Definition parse_step (st : DeckExport * DeckBucket) (rawLine : jsstring)
  : Error + (DeckExport * DeckBucket) :=
  let '(deck, section) := st in
  let line := trim rawLine in
  if is_empty line then inr (deck, section)
  else if is_sideboard_marker line then inr (deck, BSideboard)
  else
    match parseCardLine line with
    | inl e => inl e
    | inr entry =>
        if mentions_rune (name entry) then
          inr (bucket_push BRunes entry deck, section)
        else if is_battlefield (name entry) then
          inr (bucket_push BBattlefields entry deck, section)
        else inr (bucket_push section entry deck, section)
    end.

Fixpoint parse_loop (st : DeckExport * DeckBucket) (lines : list jsstring)
  : Error + (DeckExport * DeckBucket) :=
  match lines with
  | [] => inr st
  | rawLine :: lines' =>
      match parse_step st rawLine with
      | inl e => inl e
      | inr st' => parse_loop st' lines'
      end
  end.

Definition empty_deck : DeckExport :=
  {| main := []; battlefields := []; runes := []; sideboard := [] |}.

Definition parseExportedDeck (exportText : jsstring) : Error + DeckExport :=
  match parse_loop (empty_deck, BMain) (split_lines exportText) with
  | inl e => inl e
  | inr (deck, _) => inr deck
  end.

End DeckParser.

(** ** Values of type [unknown]

    [normalizeInventory] receives the result of [JSON.parse]; property
    access can moreover yield [undefined]. *)

Module Json.

Import Js.

(** A JavaScript number: not-a-number, an infinity, or a finite value,
    kept as the rational it denotes. *)
Inductive number :=
| NaN
| Infinity (negative : bool)
| Finite (q : Q).

(** An object is the list of its own properties, in property order. *)
#[warnings="-register-all"]
Inductive json :=
| JUndefined
| JNull
| JBool (b : bool)
| JNum (x : number)
| JStr (s : jsstring)
| JArr (items : list json)
| JObj (fields : list (jsstring * json)).

(** The two conversions between strings and numbers are the host's
    ([StringToNumber] and [Number::toString] of ECMAScript); the
    development is parametric in them. *)
Class Host := {
  StringToNumber : jsstring -> number;
  NumberToString : number -> jsstring
}.

Definition is_finite (x : number) : bool :=
  match x with Finite _ => true | _ => false end.

(** [Array.isArray(v)] *)
Definition is_array (v : json) : bool :=
  match v with JArr _ => true | _ => false end.

Definition array_items (v : json) : list json :=
  match v with JArr items => items | _ => [] end.

(** ToBoolean *)
Definition truthy (v : json) : bool :=
  match v with
  | JUndefined | JNull => false
  | JBool b => b
  | JNum NaN => false
  | JNum (Infinity _) => true
  | JNum (Finite q) => negb (Qeq_bool q 0)
  | JStr s => negb (is_empty s)
  | JArr _ | JObj _ => true
  end.

(** [typeof v === "object"] *)
Definition typeof_object (v : json) : bool :=
  match v with
  | JNull | JArr _ | JObj _ => true
  | _ => false
  end.

Fixpoint get_field (k : jsstring) (fields : list (jsstring * json))
  : option json :=
  match fields with
  | [] => None
  | (k', v) :: fields' =>
      if decide (k = k') then Some v else get_field k fields'
  end.

(** [k in v], for the keys the code asks about ([name], [count], [cards]):
    none of them is a property of an array or of [Object.prototype]. *)
Definition has_property (k : jsstring) (v : json) : bool :=
  match v with
  | JObj fields => bool_decide (is_Some (get_field k fields))
  | _ => false
  end.

(** [v[k]], for the same keys. *)
Definition get_property (k : jsstring) (v : json) : json :=
  match v with
  | JObj fields => default JUndefined (get_field k fields)
  | _ => JUndefined
  end.

(** [Object.entries(v)] of a non-array object. *)
Definition object_entries (v : json) : list (jsstring * json) :=
  match v with JObj fields => fields | _ => [] end.

(** [parts.join(sep)] *)
Fixpoint join_with (sep : jsstring) (parts : list jsstring) : jsstring :=
  match parts with
  | [] => []
  | [p] => p
  | p :: ps => p ++ sep ++ join_with sep ps
  end.

Section Conversions.
Context `{Host}.

(** [String(v)]; an array is joined with commas, [null] and [undefined]
    elements giving the empty string. *)
Fixpoint ToString (v : json) : jsstring :=
  match v with
  | JUndefined => str "undefined"
  | JNull => str "null"
  | JBool true => str "true"
  | JBool false => str "false"
  | JNum x => NumberToString x
  | JStr s => s
  | JArr items =>
      join_with (str ",")
        (List.map (fun e =>
                     match e with
                     | JUndefined | JNull => []
                     | _ => ToString e
                     end) items)
  | JObj _ => str "[object Object]"
  end.

(** [Number(v)]; an array or object is first converted to a string. *)
Definition ToNumber (v : json) : number :=
  match v with
  | JUndefined => NaN
  | JNull => Finite 0
  | JBool true => Finite 1
  | JBool false => Finite 0
  | JNum x => x
  | JStr s => StringToNumber s
  | JArr _ | JObj _ => StringToNumber (ToString v)
  end.

End Conversions.

(** A host for the closed examples: it agrees with ECMAScript on the
    unsigned decimal numerals and on the integers below 10^21, which is
    all the examples convert. *)
Definition integer_host : Host := {|
  StringToNumber s :=
    let t := trim s in
    if is_empty t then Finite 0
    else if forallb is_digit t then Finite (inject_Z (decimal_value t))
    else NaN;
  NumberToString x :=
    match x with
    | NaN => str "NaN"
    | Infinity false => str "Infinity"
    | Infinity true => str "-Infinity"
    | Finite q => str (NilZero.string_of_int (Z.to_int (Qfloor q)))
    end
|}.

End Json.

(** ** lib/comparison.ts *)

Module Comparison.

Import Js Json DeckParser.

Local Open Scope Z_scope.

(** [type Inventory = Record<string, number>] *)
Abbreviation Inventory := (gmap jsstring Z) (only parsing).

Record MissingCard := {
  mc_name : jsstring;
  required : Z;
  owned : Z;
  missing : Z;
  mc_bucket : DeckBucket
}.

(** [CardEntry & { bucket: DeckBucket }] *)
Record RequirementEntry := {
  req_count : Z;
  req_name : jsstring;
  req_bucket : DeckBucket
}.

Inductive ComparisonStatus := buildable | close | unbuildable.

(** [PersistedDeck]; [parsed] is the optional field. *)
Record PersistedDeck := {
  slug : jsstring;
  label : jsstring;
  url : jsstring;
  exportText : jsstring;
  parsed : option DeckExport
}.

Record DeckComparison := {
  deck : PersistedDeck;
  missingCards : list MissingCard;
  totalMissing : Z;
  status : ComparisonStatus
}.

Section Normalize.
Context `{Host}.

(** The callback of [source.reduce] in the array branch. *)
Definition add_record (acc : gmap jsstring Z) (item : json) : gmap jsstring Z :=
  if truthy item && typeof_object item
     && has_property (str "name") item && has_property (str "count") item
  then
    let name := trim (ToString (get_property (str "name") item)) in
    let count := ToNumber (get_property (str "count") item) in
    match count with
    | Finite q =>
        if negb (is_empty name)
        then <[name := default 0 (acc !! name) + Z.max 0 (Qfloor q)]> acc
        else acc
    | _ => acc
    end
  else acc.

(** The callback of [Object.entries(source).reduce] in the object branch. *)
Definition add_entry (acc : gmap jsstring Z) (entry : jsstring * json)
  : gmap jsstring Z :=
  let '(name, value) := entry in
  if is_empty name then acc
  else
    match ToNumber value with
    | Finite q => <[name := Z.max 0 (Qfloor q)]> acc
    | _ => acc
    end.

(** [normalizeInventory].  The recursive call on [source.cards] is made
    on an array only, so it is the array branch again. *)
Definition normalizeInventory (source : json) : Error + gmap jsstring Z :=
  if is_array source then
    inr (foldl add_record ∅ (array_items source))
  else if truthy source && typeof_object source then
    if has_property (str "cards") source
       && is_array (get_property (str "cards") source)
    then inr (foldl add_record ∅ (array_items (get_property (str "cards") source)))
    else inr (foldl add_entry ∅ (object_entries source))
  else inl UnsupportedFormatError.

End Normalize.

(** [collectDeckRequirements] *)
Definition collectDeckRequirements (d : DeckExport) : list RequirementEntry :=
  let order := [BMain; BBattlefields; BRunes; BSideboard] in
  flat_map (fun bucket =>
              List.map (fun card =>
                          {| req_count := count card; req_name := name card;
                             req_bucket := bucket |})
                       (bucket_get d bucket))
           order.

(** [ensureParsed].  [label] is a string, never nullish, so it is the name
    that [deck.label ?? deck.slug] puts in the message. *)
Definition ensureParsed (dk : PersistedDeck) : Error + (PersistedDeck * DeckExport) :=
  match parsed dk with
  | Some d => inr (dk, d)
  | None =>
      if is_empty (exportText dk) then inl (MissingDataError (label dk))
      else
        match parseExportedDeck (exportText dk) with
        | inl e => inl e
        | inr d =>
            inr ({| slug := slug dk; label := label dk; url := url dk;
                    exportText := exportText dk; parsed := Some d |}, d)
        end
  end.

(** One iteration of the [for] loop of [compareDeck], on the state made of
    [missingCards] and [totalMissing]. *)
Definition compare_step (inventory : gmap jsstring Z)
    (st : list MissingCard * Z) (card : RequirementEntry)
  : list MissingCard * Z :=
  let '(missingCards, totalMissing) := st in
  let owned := default 0 (inventory !! req_name card) in
  if owned <? req_count card then
    let deficit := req_count card - owned in
    (missingCards ++ [{| mc_name := req_name card; required := req_count card;
                         owned := owned; missing := deficit;
                         mc_bucket := req_bucket card |}],
     totalMissing + deficit)
  else (missingCards, totalMissing).

Definition classify (totalMissing maxMissing : Z) : ComparisonStatus :=
  if totalMissing =? 0 then buildable
  else if totalMissing <=? maxMissing then close
  else unbuildable.

Definition compareDeck (dk : PersistedDeck) (inventory : gmap jsstring Z)
    (maxMissing : Z) : Error + DeckComparison :=
  match ensureParsed dk with
  | inl e => inl e
  | inr (hydrated, d) =>
      let requirements := collectDeckRequirements d in
      let '(missingCards, totalMissing) :=
        fold_left (compare_step inventory) requirements ([], 0) in
      inr {| deck := hydrated; missingCards := missingCards;
             totalMissing := totalMissing;
             status := classify totalMissing maxMissing |}
  end.

(** [compareDecks]: [decks.map], the first failure aborting the batch. *)
Fixpoint compareDecks (decks : list PersistedDeck) (inventory : gmap jsstring Z)
    (maxMissing : Z) : Error + list DeckComparison :=
  match decks with
  | [] => inr []
  | dk :: decks' =>
      match compareDeck dk inventory maxMissing with
      | inl e => inl e
      | inr r =>
          match compareDecks decks' inventory maxMissing with
          | inl e => inl e
          | inr rs => inr (r :: rs)
          end
      end
  end.

End Comparison.

(** ** The specification's reading of the two components

    These definitions follow the words of the specification, not the
    code; the theorems below compare the two. *)

Module Reference.

Import Js Json DeckParser Comparison.

(** *** Deck parser *)

(** A blank line is made of white space only. *)
Definition blank (l : jsstring) : bool := forallb is_white_space l.

(** The non-blank lines among [raws], each without its surrounding white
    space. *)
Definition clean (raws : list jsstring) : list jsstring :=
  List.map trim (List.filter (fun l => negb (blank l)) raws).

(** The non-blank lines of a text. *)
Definition text_lines (text : jsstring) : list jsstring :=
  clean (split_lines text).

Definition lower_ascii (c : N) : N :=
  if ((65 <=? c) && (c <=? 90))%N then (c + 32)%N else c.

Definition lower (s : jsstring) : jsstring := List.map lower_ascii s.

(** The section marker: "Sideboard", optionally followed by a colon, in
    any letter case. *)
Definition is_marker (l : jsstring) : bool :=
  bool_decide (lower l = str "sideboard")
  || bool_decide (lower l = str "sideboard:").

(** The data lines: non-blank lines that are not section markers. *)
Definition data (ls : list jsstring) : list jsstring :=
  List.filter (fun l => negb (is_marker l)) ls.

Definition data_lines (text : jsstring) : list jsstring :=
  data (text_lines text).

(** The shape of a data line: a run of digits, white space, and a name
    made of at least one character, none of them a line terminator. *)
Definition line_shape (l : jsstring) : Prop :=
  ∃ ds ws nm : jsstring,
    l = ds ++ ws ++ nm
    ∧ ds ≠ [] ∧ Forall (fun c => is_digit c = true) ds
    ∧ ws ≠ [] ∧ Forall (fun c => is_white_space c = true) ws
    ∧ nm ≠ [] ∧ Forall (fun c => is_line_terminator c = false) nm.

(** The shape as the specification words it, with a positive integer. *)
Definition positive_line_shape (l : jsstring) : Prop :=
  ∃ ds ws nm : jsstring,
    l = ds ++ ws ++ nm
    ∧ ds ≠ [] ∧ Forall (fun c => is_digit c = true) ds
    ∧ (0 < decimal_value ds)%Z
    ∧ ws ≠ [] ∧ Forall (fun c => is_white_space c = true) ws
    ∧ nm ≠ [] ∧ Forall (fun c => is_line_terminator c = false) nm.

(** The entry of a data line: the leading run of digits is the count, the
    remainder, trimmed, is the name. *)
Definition entry_of (l : jsstring) : CardEntry :=
  {| count := decimal_value (fst (span is_digit l));
     name := trim (snd (span is_digit l)) |}.

(** The name contains "Rune", in any letter case. *)
Definition contains_rune (nm : jsstring) : bool :=
  existsb (fun i => bool_decide (lower (take 4 (drop i nm)) = str "rune"))
          (seq 0 (length nm)).

(** The enumerated battlefield names. *)
Definition battlefield_list : list jsstring :=
  List.map str [
    "Grove of the God-Willow"; "Hallowed Tomb"; "Monastery of Hirana";
    "Navori Fighting Pit"; "Obelisk of Power"; "Reaver's Row";
    "Reckoner's Arena"; "Sigil of the Storm"; "Startipped Peak";
    "Targon's Peak"; "The Arena's Greatest"; "The Candlelit Sanctum";
    "The Dreaming Tree"; "The Grand Plaza"; "Trifarian War Camp";
    "Vilemaw's Lair"; "Void Gate"; "Windswept Hillock"; "Zaun Warrens"
  ]%string.

(** The bucket of an entry, by priority; the cursor is the last resort. *)
Definition bucket_of (cursor : DeckBucket) (nm : jsstring) : DeckBucket :=
  if contains_rune nm then BRunes
  else if bool_decide (nm ∈ battlefield_list) then BBattlefields
  else cursor.

(** The cursor in front of line [i]: [sideboard] once a marker has been
    seen, [main] before. *)
Definition cursor_at (ls : list jsstring) (i : nat) : DeckBucket :=
  if existsb is_marker (take i ls) then BSideboard else BMain.

(** What line [i] contributes: nothing for a marker, one entry in its
    bucket otherwise. *)
Definition placement (ls : list jsstring) (i : nat)
  : list (DeckBucket * CardEntry) :=
  match ls !! i with
  | Some l =>
      if is_marker l then []
      else [(bucket_of (cursor_at ls i) (name (entry_of l)), entry_of l)]
  | None => []
  end.

Definition placements (ls : list jsstring) : list (DeckBucket * CardEntry) :=
  flat_map (placement ls) (seq 0 (length ls)).

Definition bucket_eqb (a b : DeckBucket) : bool :=
  match a, b with
  | BMain, BMain | BBattlefields, BBattlefields
  | BRunes, BRunes | BSideboard, BSideboard => true
  | _, _ => false
  end.

Definition entries_in (b : DeckBucket) (ps : list (DeckBucket * CardEntry))
  : list CardEntry :=
  List.map snd (List.filter (fun p => bucket_eqb (fst p) b) ps).

Definition deck_of (ps : list (DeckBucket * CardEntry)) : DeckExport :=
  {| main := entries_in BMain ps;
     battlefields := entries_in BBattlefields ps;
     runes := entries_in BRunes ps;
     sideboard := entries_in BSideboard ps |}.

(** The deck the specification assigns to a text. *)
Definition parse_spec (text : jsstring) : DeckExport :=
  deck_of (placements (text_lines text)).

(** Every line of [ls'] is the line of [ls] at the same place, with white
    space added in front of it and behind it. *)
Definition padded (l l' : jsstring) : Prop :=
  ∃ ws1 ws2 : jsstring,
    l' = ws1 ++ l ++ ws2
    ∧ Forall (fun c => is_white_space c = true) ws1
    ∧ Forall (fun c => is_white_space c = true) ws2.

(** Lines put together with line feeds. *)
Definition unlines (ls : list jsstring) : jsstring := join_with [10%N] ls.

(** No white space at either end. *)
Definition trimmed (s : jsstring) : Prop :=
  (∀ c, head s = Some c → is_white_space c = false)
  ∧ (∀ c, last s = Some c → is_white_space c = false).

Definition total_entries (d : DeckExport) : nat :=
  (length (main d) + length (battlefields d)
   + length (runes d) + length (sideboard d))%nat.

Definition sum_Z (l : list Z) : Z := fold_right Z.add 0%Z l.

Definition all_entries (d : DeckExport) : list CardEntry :=
  main d ++ battlefields d ++ runes d ++ sideboard d.

Definition total_count (d : DeckExport) : Z :=
  sum_Z (List.map count (all_entries d)).

(** *** Comparison engine *)

Definition tagged (b : DeckBucket) (cards : list CardEntry)
  : list RequirementEntry :=
  List.map (fun card => {| req_count := count card; req_name := name card;
                           req_bucket := b |}) cards.

(** The four buckets, one after the other. *)
Definition flattened (d : DeckExport) : list RequirementEntry :=
  tagged BMain (main d) ++ tagged BBattlefields (battlefields d)
  ++ tagged BRunes (runes d) ++ tagged BSideboard (sideboard d).

(** The owned count of a card, 0 when the inventory does not list it. *)
Definition owned_count (inventory : gmap jsstring Z) (nm : jsstring) : Z :=
  match inventory !! nm with
  | Some n => n
  | None => 0%Z
  end.

Definition short_of (inventory : gmap jsstring Z) (r : RequirementEntry) : bool :=
  (owned_count inventory (req_name r) <? req_count r)%Z.

Definition missing_card (inventory : gmap jsstring Z) (r : RequirementEntry)
  : MissingCard :=
  {| mc_name := req_name r;
     required := req_count r;
     owned := owned_count inventory (req_name r);
     missing := (req_count r - owned_count inventory (req_name r))%Z;
     mc_bucket := req_bucket r |}.

Definition reference_missing (inventory : gmap jsstring Z) (d : DeckExport)
  : list MissingCard :=
  List.map (missing_card inventory)
           (List.filter (short_of inventory) (flattened d)).

(** unbuildable < close < buildable *)
Definition favour (s : ComparisonStatus) : nat :=
  match s with
  | unbuildable => 0
  | close => 1
  | buildable => 2
  end.

(** *** Inventory normalizer *)

Section NormalizeSpec.
Context `{Host}.

(** Numeric conversion, floor, clamp; nothing for a value that is not
    finite. *)
Definition coerced (v : json) : option Z :=
  match ToNumber v with
  | Finite q => Some (Z.max 0 (Qfloor q))
  | _ => None
  end.

(** What a record of the array contributes: its trimmed name and coerced
    count, when it is an object with both fields, the name is not empty
    and the count is finite. *)
Definition record_entry (item : json) : option (jsstring * Z) :=
  match item with
  | JObj fields =>
      match get_field (str "name") fields, get_field (str "count") fields with
      | Some n, Some c =>
          match coerced c with
          | Some z =>
              if decide (trim (ToString n) = []) then None
              else Some (trim (ToString n), z)
          | None => None
          end
      | _, _ => None
      end
  | _ => None
  end.

(** The contributions of the records named [k], in order. *)
Definition contributions (items : list json) (k : jsstring) : list Z :=
  flat_map (fun item =>
              match record_entry item with
              | Some (nm, z) => if decide (nm = k) then [z] else []
              | None => []
              end) items.

(** The count of [k]: the sum of its contributions, if it has any. *)
Definition summed (items : list json) (k : jsstring) : option Z :=
  match contributions items k with
  | [] => None
  | zs => Some (sum_Z zs)
  end.

(** The plain-object rule: every key but the empty one, with its value
    coerced. *)
Definition plain_lookup (fields : list (jsstring * json)) (k : jsstring)
  : option Z :=
  if decide (k = []) then None else get_field k fields ≫= coerced.

End NormalizeSpec.

(** An inventory as a value: an object with one numeric property for
    each card, in any property order. *)
Definition inventory_field (kv : jsstring * Z) : jsstring * json :=
  (fst kv, JNum (Finite (inject_Z (snd kv)))).

Definition inventory_object (inv : gmap jsstring Z)
    (fields : list (jsstring * json)) : Prop :=
  fields ≡ₚ inventory_field <$> map_to_list inv.

(** An inventory with non-empty names and counts that are not negative. *)
Definition normal (inv : gmap jsstring Z) : Prop :=
  ∀ k z, inv !! k = Some z → k ≠ [] ∧ (0 ≤ z)%Z.

(** The object has no [cards] property that is an array. *)
Definition plain_mapping (fields : list (jsstring * json)) : Prop :=
  match get_field (str "cards") fields with
  | Some v => is_array v = false
  | None => True
  end.

(** *** Auxiliary operations on lines, used in the proofs *)

(** A line without its final carriage return, if it has one. *)
Fixpoint strip_cr (l : jsstring) : jsstring :=
  match l with
  | [] => []
  | [c] => if (c =? 13)%N then [] else [c]
  | c :: l' => c :: strip_cr l'
  end.

(** [strip_cr] on the last line. *)
Fixpoint chomp (ls : list jsstring) : list jsstring :=
  match ls with
  | [] => []
  | [l] => [strip_cr l]
  | l :: ls' => l :: chomp ls'
  end.

(** One more character at the end of the last line. *)
Fixpoint snoc_line (ls : list jsstring) (c : N) : list jsstring :=
  match ls with
  | [] => [[c]]
  | [l] => [l ++ [c]]
  | l :: ls' => l :: snoc_line ls' c
  end.

End Reference.

(** ** The scenarios of the specification, as data *)

Module Scenario.

Import Js Json DeckParser Comparison.

Definition LF : string := String (ascii_of_nat 10) EmptyString.

Definition acceptable_losses : jsstring := str "Acceptable Losses".
Definition fleeting_thought : jsstring := str "Fleeting Thought".

(** "3 Acceptable Losses\n2 Fleeting Thought\n\nSideboard:\n1 Acceptable Losses" *)
Definition export_text : jsstring :=
  str ("3 Acceptable Losses" ++ LF ++ "2 Fleeting Thought" ++ LF ++ LF
       ++ "Sideboard:" ++ LF ++ "1 Acceptable Losses").

Definition export_deck : DeckExport :=
  {| main := [ {| count := 3; name := acceptable_losses |};
               {| count := 2; name := fleeting_thought |} ];
     battlefields := [];
     runes := [];
     sideboard := [ {| count := 1; name := acceptable_losses |} ] |}.

(** The same text with a rune and a battlefield inside the sideboard
    region, and white space around some lines. *)
Definition mixed_text : jsstring :=
  str ("3 Acceptable Losses" ++ LF ++ "  Sideboard  " ++ LF
       ++ "2 Rune of Fury" ++ LF ++ "    1 Void Gate" ++ LF
       ++ "1 Acceptable Losses").

Definition persisted (text : jsstring) (d : option DeckExport) : PersistedDeck :=
  {| slug := str "sample"; label := str "Sample"; url := [];
     exportText := text; parsed := d |}.

(** {"Acceptable Losses": 2, "Fleeting Thought": 2} *)
Definition inventory : gmap jsstring Z :=
  <[acceptable_losses := 2%Z]> (<[fleeting_thought := 2%Z]> ∅).

Definition card_record (nm : string) (n : Z) : json :=
  JObj [(str "name", JStr (str nm)); (str "count", JNum (Finite (inject_Z n)))].

(** [{"name":"Card A","count":2},{"name":"Card A","count":1}] *)
Definition card_a_twice : json :=
  JArr [card_record "Card A" 2; card_record "Card A" 1].

(** {"Card A": 2.5, "cards": "many", "Card B": -1} *)
Definition plain_fields : list (jsstring * json) :=
  [(str "Card A", JNum (Finite (5 # 2)));
   (str "cards", JStr (str "many"));
   (str "Card B", JNum (Finite (inject_Z (-1))))].

End Scenario.

(** ** The inventory scraper: [aggregateCounts] *)

Module InventoryScraper.

Import Js Json.

Local Open Scope Z_scope.

(** [InventoryCard] of [lib/types.ts]; the fields after [count] are
    optional. *)
Record InventoryCard := {
  ic_name : jsstring;
  ic_count : Z;
  condition : option jsstring;
  finish : option jsstring;
  setName : option jsstring;
  collectorNumber : option jsstring;
  priceUsd : option (option Q);
  priceText : option jsstring;
  imageUrl : option (option jsstring);
  page : option Z
}.

(** The callback of [cards.reduce] in [aggregateCounts]. *)
Definition add_card (acc : gmap jsstring Z) (card : InventoryCard)
  : gmap jsstring Z :=
  let key := trim (ic_name card) in
  if is_empty key then acc
  else <[key := default 0 (acc !! key) + Z.max 0 (ic_count card)]> acc.

Definition aggregateCounts (cards : list InventoryCard) : gmap jsstring Z :=
  foldl add_card ∅ cards.

(** [Object.values(counts).reduce((sum, value) => sum + value, 0)] of
    [main]. *)
Definition totalCopies (counts : gmap jsstring Z) : Z :=
  map_fold (fun _ value sum => sum + value) 0 counts.

End InventoryScraper.

(** ** The dashboard: the pure functions of [App.tsx] *)

Module Dashboard.

Import Js Json DeckParser Comparison.

Local Open Scope Z_scope.

#[global] Instance DeckBucket_eq_dec : EqDecision DeckBucket.
Proof. solve_decision. Defined.

#[global] Instance ComparisonStatus_eq_dec : EqDecision ComparisonStatus.
Proof. solve_decision. Defined.

Definition missingBucketOrder : list DeckBucket :=
  [BMain; BBattlefields; BRunes; BSideboard].

(** The decimal digits of a natural number, most significant first;
    [fuel] bounds their number. *)
Fixpoint digits_of (fuel : nat) (n : N) : jsstring :=
  match fuel with
  | O => []
  | S fuel' =>
      if (n <? 10)%N then [(48 + n)%N]
      else digits_of fuel' (n / 10)%N ++ [(48 + n mod 10)%N]
  end.

(** [`${z}`] for an integer [z]; the text ECMAScript gives for the
    integers strictly between -10^21 and 10^21. *)
Definition number_text (z : Z) : jsstring :=
  let n := Z.to_N (Z.abs z) in
  let ds := digits_of (S (N.to_nat (N.log2 n))) n in
  if z <? 0 then 45%N :: ds else ds.

(** [`${card.missing} ${card.name}`] *)
Definition card_line (card : MissingCard) : jsstring :=
  number_text (missing card) ++ 32%N :: mc_name card.

(** [formatMissingCardsForExport]: one section for each bucket that has
    missing cards, one line for each card; [filter(Boolean)] drops [null]
    and the empty string. *)
Definition bucket_section (entry : DeckComparison) (bucket : DeckBucket)
  : option jsstring :=
  let cards :=
    List.filter (fun card => bool_decide (mc_bucket card = bucket))
                (missingCards entry) in
  if (length cards =? 0)%nat then None
  else Some (join_with [10%N] (List.map card_line cards)).

Definition keep_section (section : option jsstring) : list jsstring :=
  match section with
  | Some text => if is_empty text then [] else [text]
  | None => []
  end.

Definition formatMissingCardsForExport (entry : DeckComparison) : jsstring :=
  let sections := List.map (bucket_section entry) missingBucketOrder in
  join_with [10%N; 10%N] (flat_map keep_section sections).

(** [summaryCounts]: the callback of [comparisons.reduce] and its initial
    value; [printReport] computes the same summary with [forEach]. *)
Record StatusCounts := {
  n_buildable : Z;
  n_close : Z;
  n_unbuildable : Z
}.

Definition count_status (acc : StatusCounts) (entry : DeckComparison)
  : StatusCounts :=
  match status entry with
  | buildable =>
      {| n_buildable := n_buildable acc + 1; n_close := n_close acc;
         n_unbuildable := n_unbuildable acc |}
  | close =>
      {| n_buildable := n_buildable acc; n_close := n_close acc + 1;
         n_unbuildable := n_unbuildable acc |}
  | unbuildable =>
      {| n_buildable := n_buildable acc; n_close := n_close acc;
         n_unbuildable := n_unbuildable acc + 1 |}
  end.

Definition summaryCounts (comparisons : list DeckComparison) : StatusCounts :=
  foldl count_status
        {| n_buildable := 0; n_close := 0; n_unbuildable := 0 |}
        comparisons.

(** [groupedMissing]: the callback of [entry.missingCards.reduce], on a
    partial record indexed by the buckets;
    [(acc[card.bucket] ??= []).push(card)]. *)
Definition group_card (acc : DeckBucket → option (list MissingCard))
    (card : MissingCard) : DeckBucket → option (list MissingCard) :=
  fun bucket =>
    if bool_decide (bucket = mc_bucket card)
    then Some (default [] (acc bucket) ++ [card])
    else acc bucket.

Definition groupedMissing (entry : DeckComparison)
  : DeckBucket → option (list MissingCard) :=
  foldl group_card (fun _ => None) (missingCards entry).

End Dashboard.

(** ** The command lines of the three tools *)

Module Cli.

Import Js Json.

(** [Number.isNaN] *)
Definition is_nan (x : number) : bool :=
  match x with NaN => true | _ => false end.

(** [Math.floor] *)
Definition math_floor (x : number) : number :=
  match x with
  | Finite q => Finite (inject_Z (Qfloor q))
  | _ => x
  end.

(** [Math.max(a, b)] *)
Definition math_max (a b : number) : number :=
  match a, b with
  | NaN, _ | _, NaN => NaN
  | Infinity false, _ | _, Infinity false => Infinity false
  | Infinity true, x | x, Infinity true => x
  | Finite p, Finite q => if Qle_bool p q then Finite q else Finite p
  end.

(** [a < b] *)
Definition number_lt (a b : number) : bool :=
  match a, b with
  | NaN, _ | _, NaN => false
  | _, Infinity true => false
  | Infinity true, _ => true
  | Infinity false, _ => false
  | Finite _, Infinity false => true
  | Finite p, Finite q => negb (Qle_bool q p)
  end.

(** [argv[index + 1]], when it is truthy: present and not empty. *)
Definition next (argv : list jsstring) (index : nat) : option jsstring :=
  match argv !! S index with
  | Some value => if is_empty value then None else Some value
  | None => None
  end.

(** [argv.forEach((arg, index) => ...)], the callback acting on a state. *)
Fixpoint for_each_from {S : Type} (f : S → jsstring → nat → S)
    (index : nat) (rest : list jsstring) (st : S) : S :=
  match rest with
  | [] => st
  | arg :: rest' => for_each_from f (Datatypes.S index) rest' (f st arg index)
  end.

Definition for_each {S : Type} (argv : list jsstring)
    (f : S → jsstring → nat → S) (st : S) : S :=
  for_each_from f 0 argv st.

(** [arg === flag] *)
Definition is_flag (flag : string) (arg : jsstring) : bool :=
  bool_decide (arg = str flag).

(** A numeric option: [Number(value)], kept when it is not [NaN], floored
    and raised to [least]; the former value otherwise. *)
Definition numeric_option `{Host} (least : Z) (value : jsstring)
    (former : number) : number :=
  let parsed := StringToNumber value in
  if negb (is_nan parsed)
  then math_max (Finite (inject_Z least)) (math_floor parsed)
  else former.

(** *** [parseCompareArgs] of the comparison tool *)

Module Compare.
Section Args.
Context `{Host}.
(** [path.resolve(process.cwd(), p)] *)
Variable resolve : jsstring → jsstring.

Record CompareOptions := {
  decksPath : jsstring;
  inventoryPath : jsstring;
  maxMissing : number;
  jsonOutputPath : option jsstring
}.

Definition defaults : CompareOptions :=
  {| decksPath := resolve (str "data/most-viewed.json");
     inventoryPath := resolve (str "data/sample-inventory.json");
     maxMissing := Finite 4;
     jsonOutputPath := None |}.

Definition on_arg (argv : list jsstring) (o : CompareOptions)
    (arg : jsstring) (index : nat) : CompareOptions :=
  let o1 :=
    match next argv index with
    | Some value =>
        if is_flag "--decks" arg
        then {| decksPath := resolve value; inventoryPath := inventoryPath o;
                maxMissing := maxMissing o; jsonOutputPath := jsonOutputPath o |}
        else o
    | None => o
    end in
  let o2 :=
    match next argv index with
    | Some value =>
        if is_flag "--inventory" arg
        then {| decksPath := decksPath o1; inventoryPath := resolve value;
                maxMissing := maxMissing o1; jsonOutputPath := jsonOutputPath o1 |}
        else o1
    | None => o1
    end in
  let o3 :=
    match next argv index with
    | Some value =>
        if is_flag "--max-missing" arg
        then {| decksPath := decksPath o2; inventoryPath := inventoryPath o2;
                maxMissing := numeric_option 0 value (maxMissing o2);
                jsonOutputPath := jsonOutputPath o2 |}
        else o2
    | None => o2
    end in
  match next argv index with
  | Some value =>
      if is_flag "--json" arg
      then {| decksPath := decksPath o3; inventoryPath := inventoryPath o3;
              maxMissing := maxMissing o3; jsonOutputPath := Some (resolve value) |}
      else o3
  | None => o3
  end.

Definition parseCompareArgs (argv : list jsstring) : CompareOptions :=
  for_each argv (on_arg argv) defaults.

End Args.
End Compare.

(** *** [parseCliArgs] of the deck scraper *)

Module Scrape.
Section Args.
Context `{Host}.
Variable resolve : jsstring → jsstring.

Inductive Mode := sample | live.

Record ScrapeOptions := {
  mode : Mode;
  headless : bool;
  samplePath : jsstring;
  limit : number;
  outputPath : jsstring;
  requestDelayMs : number
}.

(** The local variables of the function. *)
Record Locals := {
  l_mode : Mode;
  l_isLiveMode : bool;
  l_headless : bool;
  l_samplePath : jsstring;
  l_limit : number;
  l_outputPath : jsstring;
  l_requestDelayMs : number
}.

Definition initial : Locals :=
  {| l_mode := sample; l_isLiveMode := false; l_headless := true;
     l_samplePath := resolve (str "data/sample-export.txt");
     l_limit := Finite 20;
     l_outputPath := resolve (str "data/most-viewed.json");
     l_requestDelayMs := Finite 300 |}.

Definition on_arg (argv : list jsstring) (v : Locals) (arg : jsstring)
    (index : nat) : Locals :=
  let v1 :=
    if is_flag "--live" arg
    then {| l_mode := live; l_isLiveMode := true; l_headless := l_headless v;
            l_samplePath := l_samplePath v; l_limit := l_limit v;
            l_outputPath := l_outputPath v;
            l_requestDelayMs := l_requestDelayMs v |}
    else v in
  let v2 :=
    if is_flag "--headed" arg
    then {| l_mode := l_mode v1; l_isLiveMode := l_isLiveMode v1;
            l_headless := false;
            l_samplePath := l_samplePath v1; l_limit := l_limit v1;
            l_outputPath := l_outputPath v1;
            l_requestDelayMs := l_requestDelayMs v1 |}
    else v1 in
  match next argv index with
  | None => v2
  | Some value =>
      let v3 :=
        if is_flag "--sample" arg
        then {| l_mode := l_mode v2; l_isLiveMode := l_isLiveMode v2;
                l_headless := l_headless v2;
                l_samplePath := resolve value; l_limit := l_limit v2;
                l_outputPath := l_outputPath v2;
                l_requestDelayMs := l_requestDelayMs v2 |}
        else v2 in
      let v4 :=
        if is_flag "--limit" arg
        then {| l_mode := l_mode v3; l_isLiveMode := l_isLiveMode v3;
                l_headless := l_headless v3;
                l_samplePath := l_samplePath v3;
                l_limit := numeric_option 1 value (l_limit v3);
                l_outputPath := l_outputPath v3;
                l_requestDelayMs := l_requestDelayMs v3 |}
        else v3 in
      let v5 :=
        if is_flag "--out" arg
        then {| l_mode := l_mode v4; l_isLiveMode := l_isLiveMode v4;
                l_headless := l_headless v4;
                l_samplePath := l_samplePath v4; l_limit := l_limit v4;
                l_outputPath := resolve value;
                l_requestDelayMs := l_requestDelayMs v4 |}
        else v4 in
      if is_flag "--delay" arg
      then {| l_mode := l_mode v5; l_isLiveMode := l_isLiveMode v5;
              l_headless := l_headless v5;
              l_samplePath := l_samplePath v5; l_limit := l_limit v5;
              l_outputPath := l_outputPath v5;
              l_requestDelayMs := numeric_option 0 value (l_requestDelayMs v5) |}
      else v5
  end.

(** The options, and what [console.warn] has written. *)
Definition parseCliArgs (argv : list jsstring)
  : ScrapeOptions * list jsstring :=
  let v := for_each argv (on_arg argv) initial in
  let bump := l_isLiveMode v && number_lt (l_limit v) (Finite 20) in
  ({| mode := l_mode v; headless := l_headless v;
      samplePath := l_samplePath v;
      limit := if bump then Finite 20 else l_limit v;
      outputPath := l_outputPath v;
      requestDelayMs := l_requestDelayMs v |},
   if bump
   then [str "Live mode requires at least 20 decks. Bumping limit from "
         ++ NumberToString (l_limit v) ++ str " to 20."]
   else []).

End Args.
End Scrape.

(** *** [parseCliArgs] of the inventory scraper *)

Module Inventory.
Section Args.
Context `{Host}.
Variable resolve : jsstring → jsstring.
(** [process.env.CARDNEXUS_USER] *)
Variable env_user : option jsstring.

Record InventoryScrapeOptions := {
  username : jsstring;
  headless : bool;
  outputPath : jsstring;
  delayMs : number;
  maxPages : number
}.

Definition initial : InventoryScrapeOptions :=
  {| username := default [] env_user; headless := true;
     outputPath := resolve (str "data/inventory.json");
     delayMs := Finite 250; maxPages := Finite 0 |}.

Definition on_arg (argv : list jsstring) (o : InventoryScrapeOptions)
    (arg : jsstring) (index : nat) : InventoryScrapeOptions :=
  let o1 :=
    match next argv index with
    | Some value =>
        if is_flag "--user" arg
        then {| username := trim value; headless := headless o;
                outputPath := outputPath o; delayMs := delayMs o;
                maxPages := maxPages o |}
        else o
    | None => o
    end in
  let o2 :=
    if is_flag "--headed" arg
    then {| username := username o1; headless := false;
            outputPath := outputPath o1; delayMs := delayMs o1;
            maxPages := maxPages o1 |}
    else o1 in
  match next argv index with
  | None => o2
  | Some value =>
      let o3 :=
        if is_flag "--out" arg
        then {| username := username o2; headless := headless o2;
                outputPath := resolve value; delayMs := delayMs o2;
                maxPages := maxPages o2 |}
        else o2 in
      let o4 :=
        if is_flag "--delay" arg
        then {| username := username o3; headless := headless o3;
                outputPath := outputPath o3;
                delayMs := numeric_option 0 value (delayMs o3);
                maxPages := maxPages o3 |}
        else o3 in
      if is_flag "--pages" arg
      then {| username := username o4; headless := headless o4;
              outputPath := outputPath o4; delayMs := delayMs o4;
              maxPages := numeric_option 0 value (maxPages o4) |}
      else o4
  end.

(** The one [throw]: "Missing CardNexus username. ..." *)
Inductive MissingUsername := missing_username.

Definition parseCliArgs (argv : list jsstring)
  : MissingUsername + InventoryScrapeOptions :=
  let o := for_each argv (on_arg argv) initial in
  if is_empty (username o) then inl missing_username else inr o.

End Args.
End Inventory.

(** *** [loadInventory] of the comparison tool, once the file is read and
    parsed as JSON *)

Inductive LoadError :=
| NormalizeError (e : Error)
| NoCardCounts.
    (* `Inventory file ${filePath} does not contain any card counts.` *)

Definition loadInventory `{Host} (data : json) : LoadError + gmap jsstring Z :=
  match Comparison.normalizeInventory data with
  | inl e => inl (NormalizeError e)
  | inr inventory =>
      if (length (map_to_list inventory) =? 0)%nat then inl NoCardCounts
      else inr inventory
  end.

End Cli.

(** ** Further notions, for the properties of the code beyond the claims *)

Module Notions.

Import Js Json DeckParser Comparison Reference InventoryScraper Dashboard.

(** A whole number that is at least [z], or plus infinity. *)
Definition at_least (z : Z) (x : number) : Prop :=
  match x with
  | Finite q => ∃ n : Z, q = inject_Z n ∧ (z ≤ n)%Z
  | Infinity false => True
  | _ => False
  end.

Local Open Scope Z_scope.

(** [{ ...deck, parsed: d }] *)
Definition with_parsed (dk : PersistedDeck) (d : DeckExport) : PersistedDeck :=
  {| slug := slug dk; label := label dk; url := url dk;
     exportText := exportText dk; parsed := Some d |}.

(** The inventory holds as many copies of the card as the entry asks. *)
Definition requirement_met (inv : gmap jsstring Z) (e : CardEntry) : Prop :=
  count e ≤ owned_count inv (name e).

(** What a requirement lacks, 0 when it is met. *)
Definition deficit (inv : gmap jsstring Z) (r : RequirementEntry) : Z :=
  Z.max 0 (req_count r - owned_count inv (req_name r)).

(** [inv'] owns at least as much of every card as [inv]. *)
Definition inventory_le (inv inv' : gmap jsstring Z) : Prop :=
  ∀ k, owned_count inv k ≤ owned_count inv' k.

(** The values [normalizeInventory] accepts: arrays and other non-null
    objects. *)
Definition is_object (v : json) : bool :=
  match v with
  | JArr _ | JObj _ => true
  | _ => false
  end.

(** Two decks put together, bucket by bucket. *)
Definition deck_app (d1 d2 : DeckExport) : DeckExport :=
  {| main := main d1 ++ main d2;
     battlefields := battlefields d1 ++ battlefields d2;
     runes := runes d1 ++ runes d2;
     sideboard := sideboard d1 ++ sideboard d2 |}.

(** A deck whose main cards are moved in front of its sideboard. *)
Definition to_sideboard (d : DeckExport) : DeckExport :=
  {| main := [];
     battlefields := battlefields d;
     runes := runes d;
     sideboard := main d ++ sideboard d |}.

(** The text has a section marker among its lines. *)
Definition has_marker (text : jsstring) : bool :=
  existsb is_marker (text_lines text).

(** Lines put together with carriage return and line feed. *)
Definition unlines_crlf (ls : list jsstring) : jsstring :=
  join_with [13%N; 10%N] ls.

(** A name as the parser emits them: not empty, no white space at either
    end, no line terminator inside. *)
Definition clean_name (nm : jsstring) : Prop :=
  nm ≠ [] ∧ trimmed nm ∧ Forall (fun c => is_line_terminator c = false) nm.

(** A value that holds an inventory card the way the saved inventory file
    does: an object whose [name] is the card's name and whose [count] is
    its count, whatever its other properties. *)
Definition encodes_card (card : InventoryCard) (item : json) : Prop :=
  ∃ fields,
    item = JObj fields
    ∧ get_field (str "name") fields = Some (JStr (ic_name card))
    ∧ get_field (str "count") fields
      = Some (JNum (Finite (inject_Z (ic_count card)))).

(** The cards that [aggregateCounts] does not skip. *)
Definition named (card : InventoryCard) : bool :=
  negb (blank (ic_name card)).

(** The missing cards of a bucket. *)
Definition missing_in (b : DeckBucket) (ms : list MissingCard)
  : list MissingCard :=
  List.filter (fun m => bool_decide (mc_bucket m = b)) ms.

(** A missing card read as a deck entry: as many copies as are missing. *)
Definition missing_entry (m : MissingCard) : CardEntry :=
  {| count := missing m; name := mc_name m |}.

(** The number of comparisons with a given status. *)
Definition with_status (s : ComparisonStatus) (rs : list DeckComparison) : Z :=
  Z.of_nat (length (List.filter (fun r => bool_decide (status r = s)) rs)).

(** The missing cards in the order of the export: bucket after bucket. *)
Definition export_order (ms : list MissingCard) : list MissingCard :=
  missing_in BMain ms ++ missing_in BBattlefields ms
  ++ missing_in BRunes ms ++ missing_in BSideboard ms.

(** The deck that the export of the missing cards reads as: the export
    has no section marker, so that the sideboard cards come after the main
    cards, in [main]. *)
Definition missing_deck (ms : list MissingCard) : DeckExport :=
  {| main := List.map missing_entry (missing_in BMain ms ++ missing_in BSideboard ms);
     battlefields := List.map missing_entry (missing_in BBattlefields ms);
     runes := List.map missing_entry (missing_in BRunes ms);
     sideboard := [] |}.

(** What the parser's loop does with the line of a missing card. *)
Definition reparse_push (d : DeckExport) (m : MissingCard) : DeckExport :=
  bucket_push (match mc_bucket m with BSideboard => BMain | b => b end)
              (missing_entry m) d.

(** A missing card of a parsed deck: a positive number of copies, a name
    as the parser emits them, in the bucket the parser gives that name. *)
Definition exportable (m : MissingCard) : Prop :=
  (0 < missing m)%Z
  ∧ clean_name (mc_name m)
  ∧ (mc_bucket m = BRunes ↔ contains_rune (mc_name m) = true)
  ∧ (mc_bucket m = BBattlefields
     ↔ contains_rune (mc_name m) = false ∧ mc_name m ∈ battlefield_list).

Definition sample_card (nm : string) (n : Z) : InventoryCard :=
  {| ic_name := str nm; ic_count := n; condition := Some (str "NM");
     finish := None; setName := None; collectorNumber := None;
     priceUsd := Some None; priceText := None; imageUrl := None;
     page := Some 1%Z |}.

(** The card as the scraper's file holds it. *)
Definition sample_card_json (nm : string) (n : Z) : json :=
  JObj [(str "name", JStr (str nm));
        (str "count", JNum (Finite (inject_Z n)));
        (str "condition", JStr (str "NM"));
        (str "priceUsd", JNull);
        (str "page", JNum (Finite 1))].

Definition sample_cards : list InventoryCard :=
  [sample_card "Card A" 2; sample_card "  " 5; sample_card " Card A " 1;
   sample_card "Card B" (-3)].

Definition sample_items : list json :=
  [sample_card_json "Card A" 2; sample_card_json "  " 5;
   sample_card_json " Card A " 1; sample_card_json "Card B" (-3)].

End Notions.

(** ** Facts about strings *)

Module JsFacts.

Import Js Reference.

Abbreviation all_white ws := (Forall (fun c => is_white_space c = true) ws).

Lemma white_not_digit c : is_white_space c = true → is_digit c = false.
Proof.
  unfold is_white_space, is_digit. intros Hw.
  destruct (48 <=? c)%N eqn:H1; [|done].
  destruct (c <=? 57)%N eqn:H2; [|done].
  apply N.leb_le in H1. apply N.leb_le in H2.
  repeat (apply orb_prop in Hw as [Hw|Hw]);
    try (apply andb_prop in Hw as [Hw _]);
    try (apply N.eqb_eq in Hw); try (apply N.leb_le in Hw); lia.
Qed.

Lemma blank_all_white l : blank l = true ↔ all_white l.
Proof.
  unfold blank. rewrite forallb_forall, Forall_forall.
  split; intros Hl c Hc; apply Hl; by apply list_elem_of_In.
Qed.

Lemma blank_app a b : blank (a ++ b) = blank a && blank b.
Proof. unfold blank. apply forallb_app. Qed.

Lemma trimStart_app a b :
  trimStart (a ++ b) = if blank a then trimStart b else trimStart a ++ b.
Proof.
  induction a as [|c a IH]; [done|].
  simpl. destruct (is_white_space c); [exact IH|done].
Qed.

Lemma trimStart_blank l : blank l = true → trimStart l = [].
Proof.
  induction l as [|c l IH]; [done|]. simpl.
  destruct (is_white_space c); [exact IH|done].
Qed.

Lemma trimStart_nil_blank l : trimStart l = [] → blank l = true.
Proof.
  induction l as [|c l IH]; [done|]. simpl.
  destruct (is_white_space c); [exact IH|done].
Qed.

Lemma trimStart_split l : ∃ ws, l = ws ++ trimStart l ∧ blank ws = true.
Proof.
  induction l as [|c l (ws & Hl & Hws)]; [by exists []|].
  simpl. destruct (is_white_space c) eqn:Hc.
  - exists (c :: ws). split; [by rewrite Hl at 1|]. simpl. by rewrite Hc.
  - by exists [].
Qed.

Lemma trimStart_head l c :
  head (trimStart l) = Some c → is_white_space c = false.
Proof.
  induction l as [|x l IH]; [done|]. simpl.
  destruct (is_white_space x) eqn:Hx; [exact IH|].
  simpl. intros [= <-]. exact Hx.
Qed.

Lemma blank_rev l : blank (rev l) = blank l.
Proof.
  induction l as [|c l IH]; [done|].
  simpl. rewrite blank_app, IH. simpl. rewrite andb_true_r. apply andb_comm.
Qed.

Lemma trimEnd_app a b :
  trimEnd (a ++ b) = if blank b then trimEnd a else a ++ trimEnd b.
Proof.
  unfold trimEnd. rewrite rev_app_distr, trimStart_app, blank_rev.
  destruct (blank b); [done|]. by rewrite rev_app_distr, rev_involutive.
Qed.

Lemma trimEnd_split l : ∃ ws, l = trimEnd l ++ ws ∧ blank ws = true.
Proof.
  destruct (trimStart_split (rev l)) as (ws & Hl & Hws).
  exists (rev ws). split; [|by rewrite blank_rev].
  unfold trimEnd. rewrite <- rev_app_distr, <- Hl. by rewrite rev_involutive.
Qed.

Lemma last_rev_head {A} (l : list A) : last (rev l) = head l.
Proof. destruct l as [|x l]; [done|]. simpl. by rewrite last_snoc. Qed.

Lemma trimEnd_last l c :
  last (trimEnd l) = Some c → is_white_space c = false.
Proof.
  unfold trimEnd. rewrite last_rev_head. apply trimStart_head.
Qed.

Lemma trimEnd_nil_blank l : trimEnd l = [] ↔ blank l = true.
Proof.
  unfold trimEnd. split.
  - intros Hl. rewrite <- blank_rev. apply trimStart_nil_blank.
    apply (f_equal (@rev N)) in Hl. by rewrite rev_involutive in Hl.
  - intros Hl. rewrite trimStart_blank; [done|]. by rewrite blank_rev.
Qed.

Lemma trim_nil_blank l : trim l = [] ↔ blank l = true.
Proof.
  unfold trim. rewrite trimEnd_nil_blank.
  destruct (trimStart_split l) as (ws & Hl & Hws). split.
  - intros Hb. rewrite Hl, blank_app, Hws, Hb. done.
  - intros Hb. by rewrite (trimStart_blank _ Hb).
Qed.

Lemma is_empty_true (s : jsstring) : is_empty s = true ↔ s = [].
Proof. by destruct s. Qed.

Lemma is_empty_trim l : is_empty (trim l) = blank l.
Proof.
  destruct (blank l) eqn:Hb.
  - apply is_empty_true. by apply trim_nil_blank.
  - destruct (is_empty (trim l)) eqn:He; [|done].
    apply is_empty_true, trim_nil_blank in He. congruence.
Qed.

(** White space around a string does not change what [trim] returns. *)
Lemma trim_padded ws1 l ws2 :
  blank ws1 = true → blank ws2 = true → trim (ws1 ++ l ++ ws2) = trim l.
Proof.
  intros H1 H2. unfold trim. rewrite trimStart_app, H1, trimStart_app.
  destruct (blank l) eqn:Hl.
  - rewrite (trimStart_blank _ H2), (trimStart_blank _ Hl). done.
  - by rewrite trimEnd_app, H2.
Qed.

Lemma trim_cons_white c l : is_white_space c = true → trim (c :: l) = trim l.
Proof.
  intros Hc. change (c :: l) with ([c] ++ l). rewrite <- (app_nil_r l) at 1.
  rewrite trim_padded; [done| |done]. simpl. by rewrite Hc.
Qed.

Lemma trim_snoc_white c l : is_white_space c = true → trim (l ++ [c]) = trim l.
Proof.
  intros Hc. apply (trim_padded [] l [c]); [done|]. simpl. by rewrite Hc.
Qed.

Lemma head_app_nonempty {A} (a b : list A) : a ≠ [] → head (a ++ b) = head a.
Proof. by destruct a. Qed.

(** The result of [trim] has no white space at either end. *)
Lemma trim_trimmed l : trimmed (trim l).
Proof.
  split; intros c Hc.
  - unfold trim in Hc.
    destruct (trimEnd_split (trimStart l)) as (ws & Hl & Hws).
    destruct (trimEnd (trimStart l)) as [|x t] eqn:Ht; [done|].
    simpl in Hc. injection Hc as <-.
    apply (trimStart_head l). by rewrite Hl.
  - by apply trimEnd_last in Hc.
Qed.

Lemma trimmed_trim_id l : trimmed l → trim l = l.
Proof.
  intros [Hh Hl]. unfold trim.
  assert (trimStart l = l) as ->.
  { destruct l as [|c l]; [done|]. simpl. by rewrite (Hh c eq_refl). }
  unfold trimEnd. destruct (rev l) as [|c r] eqn:Hr.
  - apply (f_equal (@rev N)) in Hr. rewrite rev_involutive in Hr. by subst.
  - assert (last l = Some c) as Hc.
    { rewrite <- (rev_involutive l), Hr. simpl. by rewrite last_snoc. }
    simpl. rewrite (Hl c Hc). rewrite <- Hr. apply rev_involutive.
Qed.

Lemma trim_idempotent l : trim (trim l) = trim l.
Proof. apply trimmed_trim_id, trim_trimmed. Qed.

(** *** Matching without regard to letter case *)

Lemma ci_eq_lower a b : ci_eq a b = true ↔ lower_ascii a = lower_ascii b.
Proof.
  unfold ci_eq, to_upper_ascii, lower_ascii. rewrite N.eqb_eq.
  destruct (97 <=? a)%N eqn:A1, (a <=? 122)%N eqn:A2,
           (97 <=? b)%N eqn:B1, (b <=? 122)%N eqn:B2,
           (65 <=? a)%N eqn:A3, (a <=? 90)%N eqn:A4,
           (65 <=? b)%N eqn:B3, (b <=? 90)%N eqn:B4; simpl;
    rewrite ?N.leb_le, ?N.leb_gt in *; lia.
Qed.

Lemma ci_prefix_lower p s :
  ci_prefix p s = true ↔ lower (take (length p) s) = lower p.
Proof.
  revert s. induction p as [|a p IH]; intros s; simpl.
  - by destruct s.
  - destruct s as [|b s]; simpl; [done|].
    rewrite andb_true_iff, ci_eq_lower, IH. split.
    + by intros [-> ->].
    + intros [= -> ->]. done.
Qed.

Lemma ci_equal_lower p s : ci_equal p s = true ↔ lower s = lower p.
Proof.
  unfold ci_equal. rewrite andb_true_iff, N.eqb_eq, ci_prefix_lower. split.
  - intros [Hlen Hp]. apply Nat2N.inj in Hlen.
    by rewrite Hlen, firstn_all in Hp.
  - intros Hs. assert (length p = length s) as Hlen.
    { apply (f_equal length) in Hs. unfold lower in Hs.
      by rewrite !length_map in Hs. }
    split; [by rewrite Hlen|]. by rewrite Hlen, firstn_all.
Qed.

Lemma existsb_seq_S (f : nat → bool) n :
  existsb f (seq 0 (S n)) = f 0%nat || existsb (fun i => f (S i)) (seq 0 n).
Proof.
  simpl. f_equal. rewrite <- seq_shift. generalize (seq 0 n) as l.
  induction l as [|x l IH]; [done|]. simpl. by rewrite IH.
Qed.

Lemma ci_search_lower p s :
  p ≠ [] →
  ci_search p s =
  existsb (fun i => bool_decide (lower (take (length p) (drop i s)) = lower p))
          (seq 0 (length s)).
Proof.
  intros Hp. induction s as [|c s IH].
  - simpl. destruct p; [done|]. done.
  - change (ci_search p (c :: s)) with (ci_prefix p (c :: s) || ci_search p s).
    change (length (c :: s)) with (S (length s)).
    rewrite existsb_seq_S, IH. f_equal.
    rewrite drop_0. apply eq_true_iff_eq.
    rewrite ci_prefix_lower, bool_decide_eq_true. done.
Qed.

(** *** The longest prefix satisfying a test *)

Lemma span_app f s : fst (span f s) ++ snd (span f s) = s.
Proof.
  induction s as [|c s IH]; [done|]. simpl.
  destruct (f c); [|done]. destruct (span f s) as [a b]. simpl in *.
  by rewrite IH.
Qed.

Lemma span_fst_all f s : Forall (fun c => f c = true) (fst (span f s)).
Proof.
  induction s as [|c s IH]; [constructor|]. simpl.
  destruct (f c) eqn:Hc; [|constructor].
  destruct (span f s) as [a b]. simpl in *. by constructor.
Qed.

Lemma span_snd_head f s c : head (snd (span f s)) = Some c → f c = false.
Proof.
  induction s as [|x s IH]; [done|]. simpl.
  destruct (f x) eqn:Hx.
  - destruct (span f s) as [a b]. exact IH.
  - simpl. by intros [= <-].
Qed.

(** A prefix satisfying the test, followed by something that does not
    start with it, is the longest one. *)
Lemma span_unique f a b :
  Forall (fun c => f c = true) a →
  (∀ c, head b = Some c → f c = false) →
  span f (a ++ b) = (a, b).
Proof.
  intros Ha Hb. induction Ha as [|c a Hc Ha IH]; simpl.
  - destruct b as [|c b]; [done|]. simpl. by rewrite (Hb c eq_refl).
  - by rewrite Hc, IH.
Qed.

(** *** Splitting into lines *)

Lemma list_ind2 {A} (P : list A → Prop) :
  P [] → (∀ x, P [x]) → (∀ x y l, P l → P (y :: l) → P (x :: y :: l)) →
  ∀ l, P l.
Proof.
  intros H0 H1 H2 l. enough (P l ∧ ∀ x, P (x :: l)) as [Hl _] by exact Hl.
  induction l as [|y l [IH1 IH2]]; [by split|].
  split; [apply IH2|]. intros x. apply H2; [exact IH1|apply IH2].
Qed.

Lemma split_lines_cons c rest :
  split_lines (c :: rest) =
  if (c =? 10)%N then [] :: split_lines rest
  else match rest with
       | c' :: rest' =>
           if (c =? 13)%N && (c' =? 10)%N then [] :: split_lines rest'
           else cons_line c (split_lines rest)
       | [] => cons_line c (split_lines rest)
       end.
Proof. done. Qed.

Lemma split_lines_nonempty s : split_lines s ≠ [].
Proof.
  induction s as [|x|x y s IH1 IH2] using list_ind2; [done| |].
  - rewrite split_lines_cons. by destruct (x =? 10)%N.
  - rewrite split_lines_cons.
    destruct (x =? 10)%N; [done|].
    destruct ((x =? 13)%N && (y =? 10)%N); [done|].
    by destruct (split_lines (y :: s)).
Qed.

(** A non-empty text does not split into a single empty line. *)
Lemma split_lines_not_single_empty c s : split_lines (c :: s) ≠ [[]].
Proof.
  rewrite split_lines_cons. destruct (c =? 10)%N.
  - pose proof (split_lines_nonempty s). by destruct (split_lines s).
  - destruct s as [|c' s].
    + done.
    + destruct ((c =? 13)%N && (c' =? 10)%N).
      * pose proof (split_lines_nonempty s). by destruct (split_lines s).
      * by destruct (split_lines (c' :: s)).
Qed.

Lemma chomp_cons l ls : ls ≠ [] → chomp (l :: ls) = l :: chomp ls.
Proof. by destruct ls. Qed.

Lemma chomp_nonempty ls : ls ≠ [] → chomp ls ≠ [].
Proof. destruct ls as [|l [|l' ls]]; done. Qed.

Lemma cons_line_app c ls ls' :
  ls ≠ [] → cons_line c (ls ++ ls') = cons_line c ls ++ ls'.
Proof. by destruct ls. Qed.

Lemma chomp_cons_line c ls :
  ls ≠ [] → ls ≠ [[]] → chomp (cons_line c ls) = cons_line c (chomp ls).
Proof.
  destruct ls as [|l [|l' ls]]; [done| |done].
  intros _ Hl. destruct l as [|x l]; [done|]. done.
Qed.

(** Splitting at a line feed: the text in front of it loses the carriage
    return that ends it, if any. *)
Lemma split_lines_app_lf a b :
  split_lines (a ++ 10%N :: b) = chomp (split_lines a) ++ split_lines b.
Proof.
  induction a as [|x|x y a IH1 IH2] using list_ind2.
  - done.
  - simpl app. rewrite !split_lines_cons.
    destruct (x =? 10)%N eqn:Hx; [done|].
    simpl. by destruct (x =? 13)%N.
  - change ((x :: y :: a) ++ 10%N :: b) with (x :: y :: (a ++ 10%N :: b)).
    rewrite (split_lines_cons x (y :: a ++ _)), (split_lines_cons x (y :: a)).
    destruct (x =? 10)%N.
    { rewrite chomp_cons by apply split_lines_nonempty.
      simpl. f_equal. exact IH2. }
    destruct ((x =? 13)%N && (y =? 10)%N).
    { rewrite chomp_cons by apply split_lines_nonempty.
      simpl. f_equal. exact IH1. }
    change (y :: a ++ 10%N :: b) with ((y :: a) ++ 10%N :: b).
    rewrite IH2, cons_line_app by apply chomp_nonempty, split_lines_nonempty.
    f_equal. symmetry. apply chomp_cons_line.
    + apply split_lines_nonempty.
    + apply split_lines_not_single_empty.
Qed.

Lemma snoc_line_cons l ls c : ls ≠ [] → snoc_line (l :: ls) c = l :: snoc_line ls c.
Proof. by destruct ls. Qed.

Lemma snoc_line_cons_line x ls c :
  ls ≠ [] → snoc_line (cons_line x ls) c = cons_line x (snoc_line ls c).
Proof. destruct ls as [|l [|l' ls]]; done. Qed.

(** A character other than a line feed, at the end of the text, goes to
    the end of the last line. *)
Lemma split_lines_snoc s c :
  c ≠ 10%N → split_lines (s ++ [c]) = snoc_line (split_lines s) c.
Proof.
  intros Hc. apply N.eqb_neq in Hc.
  induction s as [|x|x y s IH1 IH2] using list_ind2.
  - simpl. by rewrite Hc.
  - simpl app. rewrite !split_lines_cons, Hc, andb_false_r.
    by destruct (x =? 10)%N.
  - change ((x :: y :: s) ++ [c]) with (x :: y :: (s ++ [c])).
    rewrite (split_lines_cons x (y :: s ++ _)), (split_lines_cons x (y :: s)).
    destruct (x =? 10)%N.
    { rewrite snoc_line_cons by apply split_lines_nonempty.
      f_equal. exact IH2. }
    destruct ((x =? 13)%N && (y =? 10)%N).
    { rewrite snoc_line_cons by apply split_lines_nonempty.
      f_equal. exact IH1. }
    change (y :: s ++ [c]) with ((y :: s) ++ [c]).
    rewrite IH2. symmetry. apply snoc_line_cons_line, split_lines_nonempty.
Qed.

(** *** The non-blank lines of a text *)

Lemma clean_app a b : clean (a ++ b) = clean a ++ clean b.
Proof. unfold clean. by rewrite List.filter_app, List.map_app. Qed.

Lemma clean_cons l ls :
  clean (l :: ls) = if blank l then clean ls else trim l :: clean ls.
Proof. unfold clean. simpl. by destruct (blank l). Qed.

Lemma clean_cons_same l l' ls :
  blank l' = blank l → trim l' = trim l → clean (l' :: ls) = clean (l :: ls).
Proof. intros Hb Ht. by rewrite !clean_cons, Hb, Ht. Qed.

Lemma blank_cons_white c l : is_white_space c = true → blank (c :: l) = blank l.
Proof. intros Hc. simpl. by rewrite Hc. Qed.

Lemma blank_snoc_white c l : is_white_space c = true → blank (l ++ [c]) = blank l.
Proof. intros Hc. rewrite blank_app. simpl. rewrite Hc. apply andb_true_r. Qed.

Lemma strip_cr_spec l : l = strip_cr l ∨ l = strip_cr l ++ [13%N].
Proof.
  induction l as [|c l IH]; [by left|].
  destruct l as [|c' l].
  - simpl. destruct (c =? 13)%N eqn:Hc; [|by left].
    apply N.eqb_eq in Hc as ->. by right.
  - change (strip_cr (c :: c' :: l)) with (c :: strip_cr (c' :: l)).
    destruct IH as [IH|IH]; [left|right]; by rewrite IH at 1.
Qed.

Lemma clean_strip_cr l ls : clean (strip_cr l :: ls) = clean (l :: ls).
Proof.
  destruct (strip_cr_spec l) as [Hl|Hl]; [by rewrite <- Hl|].
  symmetry. rewrite Hl at 1.
  apply clean_cons_same; [by apply blank_snoc_white|by apply trim_snoc_white].
Qed.

Lemma clean_chomp ls : clean (chomp ls) = clean ls.
Proof.
  induction ls as [|l ls IH]; [done|].
  destruct ls as [|l' ls]; [apply clean_strip_cr|].
  change (chomp (l :: l' :: ls)) with (l :: chomp (l' :: ls)).
  by rewrite !(clean_cons l), IH.
Qed.

Lemma clean_cons_line c ls :
  is_white_space c = true → ls ≠ [] → clean (cons_line c ls) = clean ls.
Proof.
  intros Hc Hls. destruct ls as [|l ls]; [done|]. simpl.
  apply clean_cons_same; [by apply blank_cons_white|by apply trim_cons_white].
Qed.

Lemma clean_snoc_line c ls :
  is_white_space c = true → ls ≠ [] → clean (snoc_line ls c) = clean ls.
Proof.
  intros Hc Hls. induction ls as [|l ls IH]; [done|].
  destruct ls as [|l' ls].
  - simpl snoc_line.
    apply clean_cons_same; [by apply blank_snoc_white|by apply trim_snoc_white].
  - change (snoc_line (l :: l' :: ls) c) with (l :: snoc_line (l' :: ls) c).
    rewrite !(clean_cons l), IH; done.
Qed.

Lemma text_lines_app_lf a b :
  text_lines (a ++ 10%N :: b) = text_lines a ++ text_lines b.
Proof.
  unfold text_lines. by rewrite split_lines_app_lf, clean_app, clean_chomp.
Qed.

Lemma text_lines_cons_white c s :
  is_white_space c = true → text_lines (c :: s) = text_lines s.
Proof.
  intros Hc. unfold text_lines. rewrite split_lines_cons.
  destruct (c =? 10)%N; [done|].
  destruct s as [|c' s].
  - simpl. rewrite clean_cons. simpl. by rewrite Hc.
  - destruct ((c =? 13)%N && (c' =? 10)%N) eqn:Hcc.
    + apply andb_prop in Hcc as [_ Hc']. by rewrite split_lines_cons, Hc'.
    + apply clean_cons_line; [done|apply split_lines_nonempty].
Qed.

Lemma text_lines_snoc_white s c :
  is_white_space c = true → text_lines (s ++ [c]) = text_lines s.
Proof.
  intros Hc. destruct (decide (c = 10%N)) as [->|Hne].
  - rewrite text_lines_app_lf. apply app_nil_r.
  - unfold text_lines. rewrite split_lines_snoc by done.
    apply clean_snoc_line; [done|apply split_lines_nonempty].
Qed.

(** White space around a text does not change its non-blank lines. *)
Lemma text_lines_padded ws1 s ws2 :
  blank ws1 = true → blank ws2 = true →
  text_lines (ws1 ++ s ++ ws2) = text_lines s.
Proof.
  intros H1 H2. transitivity (text_lines (s ++ ws2)).
  - clear H2. induction ws1 as [|c ws1 IH]; [done|].
    simpl in H1. apply andb_prop in H1 as [Hc H1].
    simpl app. rewrite text_lines_cons_white by done. by apply IH.
  - clear H1. revert s. induction ws2 as [|c ws2 IH]; intros s.
    + by rewrite app_nil_r.
    + simpl in H2. apply andb_prop in H2 as [Hc H2].
      change (s ++ c :: ws2) with (s ++ [c] ++ ws2).
      rewrite app_assoc, IH by done. by apply text_lines_snoc_white.
Qed.

Lemma text_lines_unlines ls :
  text_lines (unlines ls) = concat (List.map text_lines ls).
Proof.
  induction ls as [|l ls IH]; [done|].
  destruct ls as [|l' ls].
  - simpl. by rewrite app_nil_r.
  - change (unlines (l :: l' :: ls)) with (l ++ 10%N :: unlines (l' :: ls)).
    rewrite text_lines_app_lf, IH. done.
Qed.

Lemma text_lines_unlines_padded ls ls' :
  Forall2 padded ls ls' →
  text_lines (unlines ls') = text_lines (unlines ls).
Proof.
  intros Hp. rewrite !text_lines_unlines. f_equal.
  induction Hp as [|l l' ls ls' (ws1 & ws2 & -> & H1 & H2) _ IH]; [done|].
  simpl. rewrite IH. f_equal.
  apply text_lines_padded; by apply blank_all_white.
Qed.

End JsFacts.

(** ** The deck parser against the specification *)

Module ParserFacts.

Import Js DeckParser Reference JsFacts.

(** *** The three tests on a line *)

Lemma ci_equal_decide p l :
  ci_equal p l = bool_decide (lower l = lower p).
Proof.
  apply eq_true_iff_eq. by rewrite ci_equal_lower, bool_decide_eq_true.
Qed.

Lemma marker_agrees l : is_sideboard_marker l = is_marker l.
Proof. unfold is_sideboard_marker, is_marker. by rewrite !ci_equal_decide. Qed.

Lemma rune_agrees nm : mentions_rune nm = contains_rune nm.
Proof. unfold mentions_rune. by rewrite ci_search_lower. Qed.

Lemma battlefield_agrees nm :
  is_battlefield nm = bool_decide (nm ∈ battlefield_list).
Proof.
  unfold is_battlefield. apply bool_decide_ext.
  unfold BATTLEFIELD_NAMES. by rewrite elem_of_list_to_set.
Qed.

(** *** The regular expression of [parseCardLine] *)

Lemma dot_plus_to_end_true s :
  dot_plus_to_end s = true ↔
  s ≠ [] ∧ Forall (fun c => is_line_terminator c = false) s.
Proof.
  unfold dot_plus_to_end.
  rewrite andb_true_iff, negb_true_iff, forallb_forall, Forall_forall.
  split; intros [Hs Hlt]; split.
  - by destruct s.
  - intros c Hc. apply negb_true_iff, Hlt. by apply list_elem_of_In.
  - by destruct s.
  - intros c Hc. apply negb_true_iff, Hlt. by apply list_elem_of_In.
Qed.

Lemma first_match_Some ws rest ks g2 :
  first_match ws rest ks = Some g2 →
  ∃ k, k ∈ ks ∧ g2 = drop (length ws - k) ws ++ rest
       ∧ dot_plus_to_end g2 = true.
Proof.
  induction ks as [|k ks IH]; [done|]. simpl.
  destruct (dot_plus_to_end (drop (length ws - k) ws ++ rest)) eqn:Hd.
  - intros [= <-]. exists k. split; [left|done].
  - intros (k' & Hk' & Hg)%IH. exists k'. split; [by right|done].
Qed.

Lemma first_match_None ws rest ks k :
  first_match ws rest ks = None → k ∈ ks →
  dot_plus_to_end (drop (length ws - k) ws ++ rest) = false.
Proof.
  induction ks as [|k' ks IH]; [by intros _ ?%elem_of_nil|]. simpl.
  destruct (dot_plus_to_end (drop (length ws - k') ws ++ rest)) eqn:Hd; [done|].
  intros Hn [->|Hk]%elem_of_cons; [done|by apply IH].
Qed.

(** The digits of a well-shaped line are its leading run of digits. *)
Lemma shape_span_digits ds ws nm :
  Forall (fun c => is_digit c = true) ds →
  ws ≠ [] → Forall (fun c => is_white_space c = true) ws →
  span is_digit (ds ++ ws ++ nm) = (ds, ws ++ nm).
Proof.
  intros Hds Hws Hall. apply span_unique; [done|].
  intros c Hc. destruct ws as [|w ws]; [done|].
  simpl in Hc. injection Hc as <-. apply white_not_digit.
  by inversion Hall.
Qed.

Lemma match_card_line_Some l g1 g2 :
  match_card_line l = Some (g1, g2) →
  line_shape l
  ∧ g1 = fst (span is_digit l)
  ∧ trim g2 = trim (snd (span is_digit l)).
Proof.
  unfold match_card_line.
  pose proof (span_app is_digit l) as Hl.
  pose proof (span_fst_all is_digit l) as Hds.
  destruct (span is_digit l) as [ds r1]. simpl in Hl, Hds.
  destruct (is_empty ds) eqn:Hne; [done|].
  pose proof (span_app is_white_space r1) as Hr.
  pose proof (span_fst_all is_white_space r1) as Hws.
  destruct (span is_white_space r1) as [ws rest]. simpl in Hr, Hws.
  destruct (first_match ws rest _) as [g|] eqn:Hm; [|done].
  intros [= <- <-].
  apply first_match_Some in Hm as (k & Hk & Hg & Hd).
  apply elem_of_seq in Hk as [_ Hk]. simpl in Hk.
  apply dot_plus_to_end_true in Hd as [Hgne Hglt].
  assert (r1 = take (length ws - k) ws ++ g) as Hr1.
  { by rewrite Hg, app_assoc, take_drop. }
  split; [|split; [done|]].
  - exists ds, (take (length ws - k) ws), g.
    split; [by rewrite <- Hr1|].
    split; [by destruct ds|]. split; [done|].
    split.
    { intros Ht. apply (f_equal length) in Ht.
      rewrite length_take in Ht. simpl in Ht. lia. }
    split; [by apply Forall_take|done].
  - simpl. rewrite Hr1. rewrite <- (app_nil_r g) at 2. symmetry.
    apply trim_padded; [|done].
    apply blank_all_white. by apply Forall_take.
Qed.

Lemma shape_match_card_line l :
  line_shape l → is_Some (match_card_line l).
Proof.
  intros (ds & ws & nm & -> & Hds & Hdall & Hws & Hwall & Hnm & Hlt).
  unfold match_card_line. rewrite shape_span_digits by done.
  destruct ds as [|d ds]; [done|]. simpl is_empty. cbv iota.
  pose proof (span_app is_white_space nm) as Hn.
  pose proof (span_fst_all is_white_space nm) as Hw'.
  pose proof (span_snd_head is_white_space nm) as Hh.
  destruct (span is_white_space nm) as [w' nm'] eqn:Hsp. simpl in *.
  assert (span is_white_space (ws ++ nm) = (ws ++ w', nm')) as ->.
  { rewrite <- Hn, app_assoc. apply span_unique; [|done].
    by apply Forall_app. }
  destruct (first_match _ _ _) as [g|] eqn:Hm; [done|].
  exfalso.
  apply (first_match_None _ _ _ (length w')) in Hm.
  - replace (length (ws ++ w') - length w')%nat with (length ws) in Hm
      by (rewrite length_app; lia).
    rewrite drop_app_length, Hn in Hm.
    assert (dot_plus_to_end nm = true) by by apply dot_plus_to_end_true.
    congruence.
  - apply elem_of_seq. rewrite length_app. destruct ws; [done|]. simpl. lia.
Qed.

Lemma line_shape_dec l : line_shape l ∨ ¬ line_shape l.
Proof.
  destruct (match_card_line l) as [[g1 g2]|] eqn:Hm.
  - left. by apply match_card_line_Some in Hm as [? _].
  - right. intros [g Hg]%shape_match_card_line. congruence.
Qed.

Lemma parseCardLine_shape l : line_shape l → parseCardLine l = inr (entry_of l).
Proof.
  intros [[g1 g2] Hm]%shape_match_card_line. unfold parseCardLine.
  rewrite Hm. apply match_card_line_Some in Hm as (_ & -> & Hn).
  unfold entry_of. by rewrite Hn.
Qed.

Lemma parseCardLine_not_shape l :
  ¬ line_shape l → parseCardLine l = inl (ParseError l).
Proof.
  intros Hn. unfold parseCardLine.
  destruct (match_card_line l) as [[g1 g2]|] eqn:Hm; [|done].
  by apply match_card_line_Some in Hm as [? _].
Qed.

(** *** One iteration of the loop *)

Lemma parse_step_eq deck section r :
  parse_step (deck, section) r =
  if blank r then inr (deck, section)
  else if is_marker (trim r) then inr (deck, BSideboard)
  else
    match parseCardLine (trim r) with
    | inl e => inl e
    | inr entry =>
        inr (bucket_push (bucket_of section (name entry)) entry deck, section)
    end.
Proof.
  unfold parse_step. rewrite is_empty_trim, marker_agrees.
  destruct (blank r); [done|]. destruct (is_marker (trim r)); [done|].
  destruct (parseCardLine (trim r)) as [e|entry]; [done|].
  unfold bucket_of. rewrite rune_agrees, battlefield_agrees.
  destruct (contains_rune (name entry)); [done|].
  by destruct (bool_decide _).
Qed.

Lemma parse_loop_cons st r rs :
  parse_loop st (r :: rs) =
  match parse_step st r with
  | inl e => inl e
  | inr st' => parse_loop st' rs
  end.
Proof. done. Qed.

Lemma parse_loop_snoc st rs r :
  parse_loop st (rs ++ [r]) =
  match parse_loop st rs with
  | inl e => inl e
  | inr st' => parse_step st' r
  end.
Proof.
  revert st. induction rs as [|r' rs IH]; intros st; simpl.
  - by destruct (parse_step st r).
  - destruct (parse_step st r'); [done|apply IH].
Qed.

(** *** The specification's placements, line after line *)

Lemma flat_map_ext_in {A B} (f g : A → list B) l :
  (∀ a, a ∈ l → f a = g a) → flat_map f l = flat_map g l.
Proof.
  induction l as [|a l IH]; intros Hfg; [done|]. simpl.
  rewrite Hfg by left. f_equal. apply IH. intros b Hb. apply Hfg. by right.
Qed.

Lemma cursor_at_snoc_l L l i :
  (i ≤ length L)%nat → cursor_at (L ++ [l]) i = cursor_at L i.
Proof. intros Hi. unfold cursor_at. by rewrite take_app_le. Qed.

Lemma cursor_at_end L :
  cursor_at L (length L) = if existsb is_marker L then BSideboard else BMain.
Proof. unfold cursor_at. by rewrite firstn_all. Qed.

Lemma placements_snoc L l :
  placements (L ++ [l]) =
  placements L ++
  (if is_marker l then []
   else [(bucket_of (cursor_at L (length L)) (name (entry_of l)), entry_of l)]).
Proof.
  unfold placements. rewrite length_app. simpl length.
  rewrite Nat.add_1_r, seq_S, flat_map_app. f_equal.
  - apply flat_map_ext_in. intros i [_ Hi]%elem_of_seq. simpl in Hi.
    unfold placement. rewrite lookup_app_l by done.
    destruct (L !! i); [|done].
    by rewrite cursor_at_snoc_l by lia.
  - simpl. rewrite app_nil_r. unfold placement.
    rewrite list_lookup_middle by done.
    by rewrite cursor_at_snoc_l.
Qed.

Lemma deck_of_snoc ps b e :
  deck_of (ps ++ [(b, e)]) = bucket_push b e (deck_of ps).
Proof.
  unfold deck_of, entries_in, bucket_push.
  rewrite !List.filter_app, !List.map_app. simpl.
  destruct b; simpl; by rewrite ?app_nil_r.
Qed.

Lemma clean_snoc rs r :
  clean (rs ++ [r]) = clean rs ++ (if blank r then [] else [trim r]).
Proof. rewrite clean_app, clean_cons. by destruct (blank r). Qed.

(** *** The loop from its initial state *)

Lemma parse_loop_result rs st :
  parse_loop (empty_deck, BMain) rs = inr st →
  st = (deck_of (placements (clean rs)),
        cursor_at (clean rs) (length (clean rs))).
Proof.
  revert st. induction rs as [|r rs IH] using rev_ind; intros st.
  - simpl. by intros [= <-].
  - rewrite parse_loop_snoc.
    destruct (parse_loop (empty_deck, BMain) rs) as [e|st'] eqn:Hrs; [done|].
    rewrite (IH st' eq_refl). clear IH Hrs st'.
    rewrite parse_step_eq, clean_snoc.
    destruct (blank r).
    { rewrite app_nil_r. by intros [= <-]. }
    set (L := clean rs). set (l := trim r).
    rewrite placements_snoc, !cursor_at_end, existsb_app. simpl existsb.
    destruct (is_marker l) eqn:Hm.
    { rewrite app_nil_r, orb_true_r. by intros [= <-]. }
    destruct (line_shape_dec l) as [Hs|Hs].
    + rewrite (parseCardLine_shape l Hs). intros [= <-].
      by rewrite deck_of_snoc, !orb_false_r.
    + by rewrite (parseCardLine_not_shape l Hs).
Qed.

Lemma parse_loop_error rs st e :
  parse_loop st rs = inl e →
  ∃ l, e = ParseError l ∧ In l (data (clean rs)) ∧ ¬ line_shape l.
Proof.
  revert st. induction rs as [|r rs IH]; intros [deck section]; [done|].
  rewrite parse_loop_cons, parse_step_eq, clean_cons.
  destruct (blank r); [apply IH|].
  unfold data. simpl List.filter.
  destruct (is_marker (trim r)); simpl negb; cbv iota; [apply IH|].
  destruct (line_shape_dec (trim r)) as [Hs|Hs].
  - rewrite (parseCardLine_shape _ Hs).
    intros (l & -> & Hl & Hn)%IH. exists l. split; [done|]. split; [by right|done].
  - rewrite (parseCardLine_not_shape _ Hs). intros [= <-].
    exists (trim r). split; [done|]. split; [by left|done].
Qed.

Lemma parse_loop_ok rs st st' :
  parse_loop st rs = inr st' → Forall line_shape (data (clean rs)).
Proof.
  revert st. induction rs as [|r rs IH]; intros [deck section].
  { intros _. constructor. }
  rewrite parse_loop_cons, parse_step_eq, clean_cons.
  destruct (blank r); [apply IH|].
  unfold data. simpl List.filter.
  destruct (is_marker (trim r)); simpl negb; cbv iota; [apply IH|].
  destruct (line_shape_dec (trim r)) as [Hs|Hs].
  - rewrite (parseCardLine_shape _ Hs). intros Hrs. constructor; [done|].
    by apply IH in Hrs.
  - by rewrite (parseCardLine_not_shape _ Hs).
Qed.

Lemma parse_result text d :
  parseExportedDeck text = inr d → d = parse_spec text.
Proof.
  unfold parseExportedDeck, parse_spec, text_lines.
  destruct (parse_loop _ _) as [e|[d' c]] eqn:Hl; [done|].
  intros [= <-]. by apply parse_loop_result in Hl as [= -> _].
Qed.

Lemma parse_error text e :
  parseExportedDeck text = inl e →
  ∃ l, e = ParseError l ∧ In l (data_lines text) ∧ ¬ line_shape l.
Proof.
  unfold parseExportedDeck.
  destruct (parse_loop _ _) as [e'|[d' c]] eqn:Hl; [|done].
  intros [= <-]. by apply parse_loop_error in Hl.
Qed.

Lemma parse_ok text d :
  parseExportedDeck text = inr d → Forall line_shape (data_lines text).
Proof.
  unfold parseExportedDeck.
  destruct (parse_loop _ _) as [e'|[d' c]] eqn:Hl; [done|].
  intros _. by apply parse_loop_ok in Hl.
Qed.

(** *** Counting entries *)

Lemma placements_entries L :
  List.map snd (placements L) = List.map entry_of (data L).
Proof.
  induction L as [|l L IH] using rev_ind; [done|].
  rewrite placements_snoc, List.map_app, IH. unfold data.
  rewrite List.filter_app, List.map_app. simpl.
  by destruct (is_marker l).
Qed.

Lemma total_entries_deck_of ps : total_entries (deck_of ps) = length ps.
Proof.
  unfold total_entries, deck_of, entries_in. simpl.
  rewrite !length_map. induction ps as [|[b e] ps IH]; [done|].
  destruct b; simpl; lia.
Qed.

Lemma sum_Z_app a b : sum_Z (a ++ b) = (sum_Z a + sum_Z b)%Z.
Proof. induction a as [|x a IH]; simpl; lia. Qed.

Lemma total_count_deck_of ps :
  total_count (deck_of ps) = sum_Z (List.map (fun p => count (snd p)) ps).
Proof.
  unfold total_count, all_entries, deck_of, entries_in. simpl.
  rewrite !List.map_app, !sum_Z_app.
  induction ps as [|[b e] ps IH]; [done|].
  destruct b; simpl; lia.
Qed.

Lemma in_bucket_deck_of ps b e :
  In e (bucket_get (deck_of ps) b) → In e (List.map snd ps).
Proof.
  intros He.
  assert (In e (entries_in b ps)) as Hin by by destruct b.
  unfold entries_in in Hin. apply in_map_iff in Hin as ([b' e'] & <- & Hp).
  apply filter_In in Hp as [Hp _]. apply in_map_iff. by exists (b', e').
Qed.

(** *** The parser sees the non-blank, trimmed lines only *)

Lemma blank_trim r : blank (trim r) = blank r.
Proof.
  apply eq_true_iff_eq. rewrite <- !trim_nil_blank. by rewrite trim_idempotent.
Qed.

Lemma parse_step_trim st r : parse_step st (trim r) = parse_step st r.
Proof.
  destruct st as [deck section].
  by rewrite !parse_step_eq, blank_trim, trim_idempotent.
Qed.

Lemma parse_step_padded st l l' :
  padded l l' → parse_step st l' = parse_step st l.
Proof.
  intros (ws1 & ws2 & -> & H1%blank_all_white & H2%blank_all_white).
  rewrite <- (parse_step_trim st (ws1 ++ _)), <- (parse_step_trim st l).
  by rewrite trim_padded.
Qed.

Lemma parse_loop_clean st rs : parse_loop st (clean rs) = parse_loop st rs.
Proof.
  revert st. induction rs as [|r rs IH]; intros st; [done|].
  rewrite clean_cons, (parse_loop_cons st r).
  destruct (blank r) eqn:Hb.
  - destruct st as [deck section]. by rewrite parse_step_eq, Hb.
  - rewrite parse_loop_cons, parse_step_trim.
    destruct (parse_step st r); [done|apply IH].
Qed.

Lemma parse_same_lines text text' :
  text_lines text' = text_lines text →
  parseExportedDeck text' = parseExportedDeck text.
Proof.
  unfold parseExportedDeck, text_lines. intros Hl.
  by rewrite <- (parse_loop_clean _ (split_lines text')), Hl, parse_loop_clean.
Qed.

End ParserFacts.

(** ** The comparison engine and the normalizer against the specification *)

Module ComparisonFacts.

Import Js Json DeckParser Comparison Reference.

Local Open Scope Z_scope.

(** *** The loop of [compareDeck] *)

Lemma collect_flattened d : collectDeckRequirements d = flattened d.
Proof.
  unfold collectDeckRequirements, flattened, tagged. simpl.
  by rewrite app_nil_r.
Qed.

Lemma compare_step_eq inv acc t r :
  compare_step inv (acc, t) r =
  if short_of inv r
  then (acc ++ [missing_card inv r], t + missing (missing_card inv r))
  else (acc, t).
Proof.
  unfold compare_step, short_of, missing_card, owned_count. simpl.
  by destruct (inv !! req_name r).
Qed.

Lemma compare_loop inv reqs acc t :
  fold_left (compare_step inv) reqs (acc, t) =
  (acc ++ List.map (missing_card inv) (List.filter (short_of inv) reqs),
   t + sum_Z (List.map missing
                (List.map (missing_card inv)
                   (List.filter (short_of inv) reqs)))).
Proof.
  revert acc t. induction reqs as [|r reqs IH]; intros acc t.
  - simpl. by rewrite app_nil_r, Z.add_0_r.
  - cbn [fold_left List.filter]. rewrite compare_step_eq.
    destruct (short_of inv r); [|apply IH].
    rewrite IH. simpl. rewrite <- app_assoc. f_equal. lia.
Qed.

Lemma missing_positive inv reqs :
  Forall (fun m => 0 < missing m)
         (List.map (missing_card inv) (List.filter (short_of inv) reqs)).
Proof.
  apply Forall_forall. intros m Hm. apply list_elem_of_In in Hm.
  apply in_map_iff in Hm as (r & <- & Hr).
  apply filter_In in Hr as [_ Hr]. unfold short_of in Hr.
  apply Z.ltb_lt in Hr. simpl. lia.
Qed.

Lemma sum_Z_nonneg ms :
  Forall (fun m => 0 < missing m) ms → 0 ≤ sum_Z (List.map missing ms).
Proof. induction 1; simpl; lia. Qed.

Lemma compareDeck_parsed dk d inv maxMissing :
  parsed dk = Some d →
  compareDeck dk inv maxMissing =
  inr {| deck := dk;
         missingCards := reference_missing inv d;
         totalMissing := sum_Z (List.map missing (reference_missing inv d));
         status := classify (sum_Z (List.map missing (reference_missing inv d)))
                            maxMissing |}.
Proof.
  intros Hp. unfold compareDeck, ensureParsed. rewrite Hp.
  by rewrite collect_flattened, compare_loop.
Qed.

(** Whatever the threshold, a comparison that returns has a total that
    is the sum of positive deficits. *)
Lemma compareDeck_inr dk inv maxMissing r :
  compareDeck dk inv maxMissing = inr r →
  ∃ ms, missingCards r = ms ∧ Forall (fun m => 0 < missing m) ms
        ∧ totalMissing r = sum_Z (List.map missing ms)
        ∧ status r = classify (totalMissing r) maxMissing.
Proof.
  unfold compareDeck.
  destruct (ensureParsed dk) as [e|[hydrated d]]; [done|].
  rewrite collect_flattened, compare_loop. intros [= <-]. simpl.
  eexists. split; [done|]. split; [apply missing_positive|done].
Qed.

(** The threshold plays no part in whether [compareDeck] throws, nor in
    the total. *)
Lemma compareDeck_threshold dk inv m1 m2 :
  match compareDeck dk inv m1, compareDeck dk inv m2 with
  | inl e1, inl e2 => e1 = e2
  | inr r1, inr r2 => totalMissing r1 = totalMissing r2
  | _, _ => False
  end.
Proof.
  unfold compareDeck.
  destruct (ensureParsed dk) as [e|[hydrated d]]; [done|].
  by rewrite collect_flattened, !compare_loop.
Qed.

Lemma classify_spec t m :
  0 ≤ t →
  (classify t m = buildable ↔ t = 0)
  ∧ (classify t m = close ↔ 0 < t ≤ m)
  ∧ (classify t m = unbuildable ↔ ¬ t = 0 ∧ ¬ 0 < t ≤ m).
Proof.
  intros Ht. unfold classify.
  destruct (t =? 0) eqn:H0; [apply Z.eqb_eq in H0|apply Z.eqb_neq in H0].
  - repeat split; try done; lia.
  - destruct (t <=? m) eqn:Hm; [apply Z.leb_le in Hm|apply Z.leb_gt in Hm];
      repeat split; try done; try lia.
Qed.

Lemma classify_monotone t m1 m2 :
  m1 ≤ m2 → (favour (classify t m1) ≤ favour (classify t m2))%nat.
Proof.
  intros Hm. unfold classify. destruct (t =? 0); [done|].
  destruct (t <=? m1) eqn:H1, (t <=? m2) eqn:H2; simpl; lia.
Qed.

(** *** The array branch of [normalizeInventory] *)

Section Normalize.
Context `{Host}.

Lemma add_record_entry (acc : gmap jsstring Z) (item : json) :
  add_record acc item =
  match record_entry item with
  | Some (nm, z) => <[nm := default 0 (acc !! nm) + z]> acc
  | None => acc
  end.
Proof.
  unfold add_record, record_entry, coerced.
  destruct item as [| |b|x|s|items|fields]; simpl;
    rewrite ?andb_false_r; try done.
  destruct (get_field (str "name") fields) as [n|]; simpl; [|done].
  destruct (get_field (str "count") fields) as [c|]; simpl; [|done].
  destruct (ToNumber c) as [| |q]; try done.
  destruct (decide (trim (ToString n) = [])) as [->|Hne]; [done|].
  by destruct (trim (ToString n)).
Qed.

Lemma fold_add_record_lookup (items : list json) (acc : gmap jsstring Z)
    (k : jsstring) :
  foldl add_record acc items !! k =
  match contributions items k with
  | [] => acc !! k
  | zs => Some (default 0 (acc !! k) + sum_Z zs)
  end.
Proof.
  revert acc. induction items as [|item items IH]; intros acc; [done|].
  cbn [foldl]. rewrite IH, add_record_entry.
  unfold contributions. cbn [flat_map]. fold (contributions items k).
  destruct (record_entry item) as [[nm z]|]; [|done].
  destruct (decide (nm = k)) as [->|Hne].
  - rewrite lookup_insert_eq. simpl.
    destruct (contributions items k) as [|z' zs]; simpl; f_equal; lia.
  - by rewrite lookup_insert_ne.
Qed.

Lemma normalize_array items :
  normalizeInventory (JArr items) = inr (foldl add_record ∅ items).
Proof. done. Qed.

(** *** The object branch *)

Lemma normalize_plain fields :
  plain_mapping fields →
  normalizeInventory (JObj fields) = inr (foldl add_entry ∅ fields).
Proof.
  unfold plain_mapping, normalizeInventory, has_property, get_property.
  cbn [is_array truthy typeof_object object_entries andb].
  destruct (get_field (str "cards") fields) as [v|]; [|done].
  change (default JUndefined (Some v)) with v. intros ->.
  by rewrite andb_false_r.
Qed.

Lemma add_entry_eq (acc : gmap jsstring Z) (k : jsstring) (v : json) :
  add_entry acc (k, v) =
  if decide (k = []) then acc
  else match coerced v with
       | Some z => <[k := z]> acc
       | None => acc
       end.
Proof.
  unfold add_entry, coerced. destruct k as [|c k]; [done|]. simpl.
  by destruct (ToNumber v).
Qed.

Lemma get_field_cons k k' v fields :
  get_field k ((k', v) :: fields) =
  if decide (k = k') then Some v else get_field k fields.
Proof. done. Qed.

Lemma get_field_None k (fields : list (jsstring * json)) :
  k ∉ fields.*1 → get_field k fields = None.
Proof.
  induction fields as [|[k' v] fields IH]; [done|].
  rewrite fmap_cons, not_elem_of_cons. intros [Hne Hk].
  rewrite get_field_cons. destruct (decide (k = k')); [done|by apply IH].
Qed.

Lemma get_field_elem k v (fields : list (jsstring * json)) :
  get_field k fields = Some v → (k, v) ∈ fields.
Proof.
  induction fields as [|[k' v'] fields IH]; [done|].
  rewrite get_field_cons. destruct (decide (k = k')) as [->|Hne].
  - intros [= ->]. left.
  - intros Hf. right. by apply IH.
Qed.

Lemma elem_get_field k v (fields : list (jsstring * json)) :
  NoDup fields.*1 → (k, v) ∈ fields → get_field k fields = Some v.
Proof.
  induction fields as [|[k' v'] fields IH]; [by intros _ ?%elem_of_nil|].
  rewrite fmap_cons, NoDup_cons. intros [Hk' Hnd] [Heq|Hin]%elem_of_cons.
  - injection Heq as -> ->. rewrite get_field_cons. by rewrite decide_True.
  - rewrite get_field_cons. destruct (decide (k = k')) as [->|Hne].
    + destruct Hk'. apply list_elem_of_fmap. by exists (k', v).
    + by apply IH.
Qed.

Lemma fold_add_entry_lookup (fields : list (jsstring * json))
    (acc : gmap jsstring Z) (k : jsstring) :
  NoDup fields.*1 →
  foldl add_entry acc fields !! k =
  match plain_lookup fields k with
  | Some z => Some z
  | None => acc !! k
  end.
Proof.
  unfold plain_lookup. revert acc.
  induction fields as [|[k' v] fields IH]; intros acc.
  { intros _. simpl. by destruct (decide (k = [])). }
  rewrite fmap_cons, NoDup_cons. intros [Hk' Hnd]. simpl in Hk'.
  cbn [foldl]. rewrite (IH _ Hnd), add_entry_eq, get_field_cons.
  destruct (decide (k = [])) as [->|Hk].
  { destruct (decide (k' = [])); [done|].
    destruct (coerced v); [|done]. by rewrite lookup_insert_ne. }
  destruct (decide (k = k')) as [->|Hne].
  - rewrite (get_field_None _ _ Hk'). simpl.
    rewrite decide_False by done.
    destruct (coerced v); [|done]. by rewrite lookup_insert_eq.
  - destruct (get_field k fields ≫= coerced); [done|].
    destruct (decide (k' = [])); [done|].
    destruct (coerced v); [|done]. by rewrite lookup_insert_ne.
Qed.

(** The normalizer yields non-empty names and counts that are not
    negative. *)
Lemma add_entry_normal acc entry : normal acc → normal (add_entry acc entry).
Proof.
  intros Hacc. destruct entry as [k v]. rewrite add_entry_eq.
  destruct (decide (k = [])); [done|].
  unfold coerced. destruct (ToNumber v) as [| |q]; try done.
  intros k' z. destruct (decide (k = k')) as [<-|Hne].
  - rewrite lookup_insert_eq. intros [= <-]. split; [done|lia].
  - rewrite lookup_insert_ne by done. apply Hacc.
Qed.

Lemma add_record_normal acc item : normal acc → normal (add_record acc item).
Proof.
  intros Hacc. rewrite add_record_entry.
  destruct (record_entry item) as [[nm z]|] eqn:He; [|done].
  assert (nm ≠ [] ∧ 0 ≤ z) as [Hnm Hz].
  { unfold record_entry, coerced in He.
    destruct item as [| |b|x|s|items|fields]; try done.
    destruct (get_field (str "name") fields) as [n|]; [|done].
    destruct (get_field (str "count") fields) as [c|]; [|done].
    destruct (ToNumber c) as [| |q]; try done.
    destruct (decide (trim (ToString n) = [])); [done|].
    injection He as <- <-. split; [done|lia]. }
  intros k' z'. destruct (decide (nm = k')) as [<-|Hne].
  - rewrite lookup_insert_eq. intros [= <-]. split; [done|].
    destruct (acc !! nm) as [z0|] eqn:H0; simpl; [|lia].
    apply Hacc in H0 as [_ H0]. lia.
  - rewrite lookup_insert_ne by done. apply Hacc.
Qed.

Lemma foldl_normal {A} (f : gmap jsstring Z → A → gmap jsstring Z) l acc :
  (∀ acc x, normal acc → normal (f acc x)) → normal acc → normal (foldl f acc l).
Proof.
  intros Hf. revert acc. induction l as [|x l IH]; intros acc Hacc; [done|].
  simpl. apply IH, Hf, Hacc.
Qed.

Lemma normalize_normal source inv :
  normalizeInventory source = inr inv → normal inv.
Proof.
  assert (normal (∅ : gmap jsstring Z)) as Hempty by (intros k z; by rewrite lookup_empty).
  unfold normalizeInventory.
  destruct (is_array source).
  { intros [= <-]. by apply foldl_normal; [apply add_record_normal|]. }
  destruct (truthy source && typeof_object source); [|done].
  destruct (has_property _ _ && is_array _).
  - intros [= <-]. by apply foldl_normal; [apply add_record_normal|].
  - intros [= <-]. by apply foldl_normal; [apply add_entry_normal|].
Qed.

(** *** A normalized inventory, normalized again *)

Lemma coerced_number z : 0 ≤ z → coerced (JNum (Finite (inject_Z z))) = Some z.
Proof.
  intros Hz. unfold coerced, ToNumber. rewrite Qfloor_Z. f_equal. lia.
Qed.

Lemma inventory_object_fields (inv : gmap jsstring Z)
    (fields : list (jsstring * json)) (k : jsstring) (v : json) :
  inventory_object inv fields →
  (k, v) ∈ fields ↔
  ∃ z, inv !! k = Some z ∧ v = JNum (Finite (inject_Z z)).
Proof.
  intros Hf. unfold inventory_object in Hf. rewrite Hf.
  rewrite list_elem_of_fmap. split.
  - intros ([k' z] & [= -> ->] & Hin%elem_of_map_to_list). by exists z.
  - intros (z & Hz & ->). exists (k, z). split; [done|].
    by apply elem_of_map_to_list.
Qed.

Lemma inventory_object_NoDup (inv : gmap jsstring Z)
    (fields : list (jsstring * json)) :
  inventory_object inv fields → NoDup fields.*1.
Proof.
  intros Hf. unfold inventory_object in Hf. rewrite Hf.
  rewrite <- list_fmap_compose.
  apply (NoDup_fst_map_to_list inv).
Qed.

Lemma normalize_inventory_object (inv : gmap jsstring Z)
    (fields : list (jsstring * json)) :
  normal inv → inventory_object inv fields →
  normalizeInventory (JObj fields) = inr inv.
Proof.
  intros Hn Hf. rewrite normalize_plain.
  - f_equal. apply map_eq. intros k.
    rewrite fold_add_entry_lookup by by eapply inventory_object_NoDup.
    rewrite lookup_empty. unfold plain_lookup.
    destruct (decide (k = [])) as [->|Hk].
    { destruct (inv !! []) as [z|] eqn:Hz; [|done].
      by apply Hn in Hz as [? _]. }
    destruct (inv !! k) as [z|] eqn:Hz.
    + assert ((k, JNum (Finite (inject_Z z))) ∈ fields) as Hin.
      { apply (inventory_object_fields inv); [done|]. by exists z. }
      apply elem_get_field in Hin; [|by eapply inventory_object_NoDup].
      rewrite Hin. cbn [mbind option_bind]. rewrite coerced_number; [done|].
      by apply Hn in Hz as [_ ?].
    + destruct (get_field k fields) as [v|] eqn:Hv; [|done].
      apply get_field_elem in Hv.
      apply (inventory_object_fields inv) in Hv as (z & Hz' & _); [|done].
      congruence.
  - unfold plain_mapping.
    destruct (get_field (str "cards") fields) as [v|] eqn:Hv; [|done].
    apply get_field_elem in Hv.
    by apply (inventory_object_fields inv) in Hv as (z & _ & ->).
Qed.

End Normalize.

End ComparisonFacts.

(** ** The claims of the specification *)

Module Claims.

Import Js Json DeckParser Comparison Reference Scenario.
Import JsFacts ParserFacts ComparisonFacts.

Local Open Scope Z_scope.

(** Whether a line has the shape of a data line can be computed: it is
    what the regular expression of [parseCardLine] decides. *)
#[local] Instance line_shape_decision l : Decision (line_shape l).
Proof.
  destruct (match_card_line l) as [[g1 g2]|] eqn:Hm.
  - left. exact (proj1 (match_card_line_Some l g1 g2 Hm)).
  - right. intros Hs. destruct (shape_match_card_line l Hs) as [g Hg].
    congruence.
Defined.

(** *** Deck parser *)

(** C3. When every data line of the export text is well shaped, the parser
    returns the deck the specification describes: the non-blank lines are
    taken in order; a line equal to "Sideboard" or "Sideboard:", whatever
    the letter case, moves the cursor to the sideboard and gives no entry;
    every other line gives one entry, put in [runes] if its name contains
    "Rune" in any letter case, else in [battlefields] if its name is one
    of the enumerated battlefield names, else in the bucket of the
    cursor. *)
Theorem parse_assigns_lines text :
  Forall line_shape (data_lines text) →
  parseExportedDeck text = inr (parse_spec text).
Proof.
  intros Hall. destruct (parseExportedDeck text) as [e|d] eqn:Hp.
  - apply parse_error in Hp as (l & _ & Hl & Hn).
    rewrite Forall_forall in Hall. destruct Hn. apply Hall.
    by apply list_elem_of_In.
  - by apply parse_result in Hp as ->.
Qed.

Lemma parse_assigns_lines_witness :
  Forall line_shape (data_lines mixed_text)
  ∧ parseExportedDeck mixed_text = inr (parse_spec mixed_text).
Proof.
  assert (Forall line_shape (data_lines mixed_text)) as Hall.
  { apply (bool_decide_unpack _). by vm_compute. }
  split; [exact Hall|]. exact (parse_assigns_lines mixed_text Hall).
Defined.

(** The first scenario of the specification. *)
Example parse_export_text : parseExportedDeck export_text = inr export_deck.
Proof. by vm_compute. Qed.

(** A rune inside the sideboard region goes to [runes], a battlefield to
    [battlefields]; the card after them goes to the sideboard. *)
Example parse_mixed_text :
  parseExportedDeck mixed_text =
  inr {| main := [ {| count := 3; name := acceptable_losses |} ];
         battlefields := [ {| count := 1; name := str "Void Gate" |} ];
         runes := [ {| count := 2; name := str "Rune of Fury" |} ];
         sideboard := [ {| count := 1; name := acceptable_losses |} ] |}.
Proof. by vm_compute. Qed.

(** What the specification assigns to the second text. *)
Example parse_spec_mixed_text :
  parse_spec mixed_text =
  {| main := [ {| count := 3; name := acceptable_losses |} ];
     battlefields := [ {| count := 1; name := str "Void Gate" |} ];
     runes := [ {| count := 2; name := str "Rune of Fury" |} ];
     sideboard := [ {| count := 1; name := acceptable_losses |} ] |}.
Proof. by vm_compute. Qed.

(** In the loop itself, a well-shaped line whose name contains "Rune" goes
    to [runes] whatever the section, before the battlefield names are
    looked at. *)
Lemma rune_line_placed deck section r :
  blank r = false → is_marker (trim r) = false → line_shape (trim r) →
  contains_rune (name (entry_of (trim r))) = true →
  parse_step (deck, section) r
  = inr (bucket_push BRunes (entry_of (trim r)) deck, section).
Proof.
  intros Hb Hm Hs Hr. rewrite parse_step_eq, Hb, Hm.
  rewrite (parseCardLine_shape _ Hs). unfold bucket_of. by rewrite Hr.
Qed.

(** A well-shaped line with a battlefield name, and no "Rune" in it, goes
    to [battlefields] whatever the section. *)
Lemma battlefield_line_placed deck section r :
  blank r = false → is_marker (trim r) = false → line_shape (trim r) →
  contains_rune (name (entry_of (trim r))) = false →
  name (entry_of (trim r)) ∈ battlefield_list →
  parse_step (deck, section) r
  = inr (bucket_push BBattlefields (entry_of (trim r)) deck, section).
Proof.
  intros Hb Hm Hs Hr Hbf. rewrite parse_step_eq, Hb, Hm.
  rewrite (parseCardLine_shape _ Hs). unfold bucket_of.
  by rewrite Hr, bool_decide_eq_true_2.
Qed.

(** A marker line moves the section to the sideboard and leaves the deck
    as it is. *)
Lemma marker_line_switches deck section r :
  blank r = false → is_marker (trim r) = true →
  parse_step (deck, section) r = inr (deck, BSideboard).
Proof. intros Hb Hm. by rewrite parse_step_eq, Hb, Hm. Qed.

(** C4, as amended.  The parser throws exactly when some data line is not
    made of a run of one or more digits (zero included), then white space,
    then at least one character, none of them a line terminator.  The
    error names such a line, and a deck is returned only when every data
    line is well shaped: there is no partial deck. *)
Theorem parse_fails_iff_ill_shaped text :
  ((∃ e, parseExportedDeck text = inl e)
   ↔ Exists (fun l => ¬ line_shape l) (data_lines text))
  ∧ (∀ e, parseExportedDeck text = inl e →
          ∃ l, e = ParseError l ∧ In l (data_lines text) ∧ ¬ line_shape l)
  ∧ (∀ d, parseExportedDeck text = inr d →
          Forall line_shape (data_lines text)).
Proof.
  split; [|split].
  - split.
    + intros [e (l & _ & Hl & Hn)%parse_error].
      apply Exists_exists. exists l. split; [by apply list_elem_of_In|done].
    + intros He. destruct (parseExportedDeck text) as [e|d] eqn:Hp; [by exists e|].
      apply parse_ok in Hp. apply Exists_exists in He as (l & Hl & Hn).
      rewrite Forall_forall in Hp. destruct Hn. by apply Hp.
  - apply parse_error.
  - apply parse_ok.
Qed.

(** The scenario "Nx Fake": the parse is aborted. *)
Lemma parse_fails_iff_ill_shaped_witness :
  Exists (fun l => ¬ line_shape l) (data_lines (str "Nx Fake"))
  ∧ ∃ e, parseExportedDeck (str "Nx Fake") = inl e.
Proof.
  assert (Exists (fun l => ¬ line_shape l) (data_lines (str "Nx Fake"))) as He.
  { apply (bool_decide_unpack _). by vm_compute. }
  split; [exact He|].
  exact (proj2 (proj1 (parse_fails_iff_ill_shaped (str "Nx Fake"))) He).
Defined.

Example parse_nx_fake :
  parseExportedDeck (str "Nx Fake") = inl (ParseError (str "Nx Fake")).
Proof. by vm_compute. Qed.

(** C4, as the specification states it, fails: "0 Card" does not start
    with a positive integer, and yet it is parsed, with count 0. *)
Lemma zero_count_line_accepted :
  ¬ ((∃ e, parseExportedDeck (str "0 Card") = inl e)
     ↔ Exists (fun l => ¬ positive_line_shape l) (data_lines (str "0 Card"))).
Proof.
  intros [_ Hfail].
  assert (parseExportedDeck (str "0 Card")
          = inr {| main := [ {| count := 0; name := str "Card" |} ];
                   battlefields := []; runes := []; sideboard := [] |}) as Hp
    by by vm_compute.
  destruct Hfail as [e He]; [|congruence].
  change (data_lines (str "0 Card")) with [str "0 Card"].
  apply Exists_cons_hd.
  intros (ds & ws & nm & Hl & Hds & Hdall & Hpos & Hws & Hwall & _).
  pose proof (shape_span_digits ds ws nm Hdall Hws Hwall) as Hsp.
  rewrite <- Hl in Hsp. vm_compute in Hsp. injection Hsp as <- _.
  vm_compute in Hpos. done.
Qed.




(** C10. White space in front of a line or behind it changes nothing: one
    iteration of the loop does the same on the padded line, and so does
    the whole parse on the padded text; and the names of the entries of a
    parsed deck have no white space at either end. *)
Theorem parse_ignores_padding :
  (∀ st l l', padded l l' → parse_step st l' = parse_step st l)
  ∧ (∀ ls ls', Forall2 padded ls ls' →
               parseExportedDeck (unlines ls') = parseExportedDeck (unlines ls))
  ∧ (∀ text d b e, parseExportedDeck text = inr d →
                   In e (bucket_get d b) → trimmed (name e)).
Proof.
  split; [|split].
  - apply parse_step_padded.
  - intros ls ls' Hp. by apply parse_same_lines, text_lines_unlines_padded.
  - intros text d b e ->%parse_result He.
    apply in_bucket_deck_of in He. rewrite placements_entries in He.
    apply in_map_iff in He as (l & <- & _). apply trim_trimmed.
Qed.

Lemma parse_ignores_padding_witness :
  Forall2 padded [str "3 Card"; str "Sideboard"; str "1 Other"]
                 [str "  3 Card"; str "  Sideboard  "; str "1 Other "]
  ∧ parseExportedDeck
      (unlines [str "  3 Card"; str "  Sideboard  "; str "1 Other "])
    = parseExportedDeck (unlines [str "3 Card"; str "Sideboard"; str "1 Other"]).
Proof.
  assert (Forall2 padded [str "3 Card"; str "Sideboard"; str "1 Other"]
            [str "  3 Card"; str "  Sideboard  "; str "1 Other "]) as Hp.
  { repeat constructor.
    - exists (str "  "), []. by repeat constructor.
    - exists (str "  "), (str "  "). by repeat constructor.
    - exists [], (str " "). by repeat constructor. }
  split; [exact Hp|]. exact (proj1 (proj2 parse_ignores_padding) _ _ Hp).
Defined.

Example parse_indented_card :
  parseExportedDeck (str "  3 Card") = parseExportedDeck (str "3 Card")
  ∧ parseExportedDeck (str "3 Card")
    = inr {| main := [ {| count := 3; name := str "Card" |} ];
             battlefields := []; runes := []; sideboard := [] |}.
Proof. by vm_compute. Qed.

(** *** Comparison engine *)



(** The comparison scenario of the specification: only the shortfall of
    the main deck is reported. *)
Example compare_export_deck :
  compareDeck (persisted export_text (Some export_deck)) inventory 4 =
  inr {| deck := persisted export_text (Some export_deck);
         missingCards :=
           [ {| mc_name := acceptable_losses; required := 3; owned := 2;
                missing := 1; mc_bucket := BMain |} ];
         totalMissing := 1;
         status := close |}.
Proof. by vm_compute. Qed.

(** C2. Whenever [compareDeck] returns, the status is [buildable] exactly
    when nothing is missing, [close] exactly when the total is positive
    and at most the threshold, and [unbuildable] in every other case. *)
Theorem compareDeck_status_iff (dk : PersistedDeck) (inv : gmap jsstring Z)
    (maxMissing : Z) (r : DeckComparison) :
  compareDeck dk inv maxMissing = inr r →
  (status r = buildable ↔ totalMissing r = 0)
  ∧ (status r = close ↔ 0 < totalMissing r ≤ maxMissing)
  ∧ (status r = unbuildable
     ↔ ¬ totalMissing r = 0 ∧ ¬ 0 < totalMissing r ≤ maxMissing).
Proof.
  intros (ms & _ & Hpos & Ht & ->)%compareDeck_inr.
  apply classify_spec. rewrite Ht. by apply sum_Z_nonneg.
Qed.

Lemma compareDeck_status_iff_witness :
  ∃ r, compareDeck (persisted export_text None) inventory 4 = inr r
       ∧ (status r = buildable ↔ totalMissing r = 0)
       ∧ (status r = close ↔ 0 < totalMissing r ≤ 4)
       ∧ (status r = unbuildable
          ↔ ¬ totalMissing r = 0 ∧ ¬ 0 < totalMissing r ≤ 4).
Proof.
  eexists. split; [by vm_compute|].
  apply (compareDeck_status_iff (persisted export_text None) inventory 4).
  by vm_compute.
Defined.

(** C7. For a fixed deck and inventory, a larger threshold gives a status
    at least as favourable, in the order unbuildable < close < buildable;
    whether [compareDeck] returns does not depend on the threshold. *)
Theorem status_monotone_in_threshold (dk : PersistedDeck)
    (inv : gmap jsstring Z) (m1 m2 : Z) (r1 : DeckComparison) :
  m1 ≤ m2 →
  compareDeck dk inv m1 = inr r1 →
  ∃ r2, compareDeck dk inv m2 = inr r2
        ∧ (favour (status r1) ≤ favour (status r2))%nat.
Proof.
  intros Hm H1. pose proof (compareDeck_threshold dk inv m1 m2) as Ht.
  rewrite H1 in Ht. destruct (compareDeck dk inv m2) as [e|r2] eqn:H2; [done|].
  exists r2. split; [done|].
  apply compareDeck_inr in H1 as (_ & _ & _ & _ & ->).
  apply compareDeck_inr in H2 as (_ & _ & _ & _ & ->).
  rewrite Ht. by apply classify_monotone.
Qed.

Lemma status_monotone_in_threshold_witness :
  ∃ r1 r2, compareDeck (persisted export_text None) inventory 0 = inr r1
           ∧ compareDeck (persisted export_text None) inventory 4 = inr r2
           ∧ status r1 = unbuildable ∧ status r2 = close
           ∧ (favour (status r1) ≤ favour (status r2))%nat.
Proof.
  assert (0 ≤ 4) as Hm by lia.
  destruct (status_monotone_in_threshold
              (persisted export_text None) inventory 0 4 _ Hm eq_refl)
    as (r2 & H2 & Hle).
  eexists _, r2. split; [reflexivity|]. split; [exact H2|].
  split; [reflexivity|]. split; [|exact Hle].
  vm_compute in H2. injection H2 as <-. reflexivity.
Defined.

(** *** Inventory normalizer *)


(** The scenario of the specification: summed, not overwritten. *)
Example normalize_card_a_twice `{Host} :
  normalizeInventory card_a_twice = inr {[ str "Card A" := 3 ]}.
Proof. by vm_compute. Qed.

(** What is skipped, in the words of the claim. *)
Lemma record_skipped `{Host} (item : json) :
  record_entry item = None ↔
  (∀ fields, item = JObj fields →
     get_field (str "name") fields = None
     ∨ get_field (str "count") fields = None
     ∨ trim (ToString (get_property (str "name") item)) = []
     ∨ is_finite (ToNumber (get_property (str "count") item)) = false).
Proof.
  unfold record_entry, coerced, get_property.
  destruct item as [| |b|x|s|items|fields]; try (split; [done|by intros _]).
  split.
  - intros He fields' [= <-].
    destruct (get_field (str "name") fields) as [n|]; [|by left].
    destruct (get_field (str "count") fields) as [c|]; [|by right; left].
    right; right. simpl. destruct (ToNumber c) as [| |q]; try by right.
    left. by destruct (decide (trim (ToString n) = [])).
  - intros Hs. specialize (Hs fields eq_refl).
    destruct (get_field (str "name") fields) as [n|]; [|done].
    destruct (get_field (str "count") fields) as [c|]; [|done].
    simpl in Hs. destruct (ToNumber c) as [| |q]; try done.
    destruct (decide (trim (ToString n) = [])); [done|].
    by destruct Hs as [|[|[|]]].
Qed.





(** With the sample host, "many" is not a number and the key is dropped;
    2.5 is floored and -1 is clamped. *)
Example normalize_plain_fields :
  normalizeInventory (H := integer_host) (JObj plain_fields)
  = inr (<[str "Card A" := 2]> (<[str "Card B" := 0]> ∅)).
Proof. by vm_compute. Qed.

(** A numeric [cards] property is kept as a card name. *)
Example normalize_numeric_cards `{Host} :
  normalizeInventory (JObj [(str "cards", JNum (Finite (inject_Z 5)))])
  = inr {[ str "cards" := 5 ]}.
Proof. by vm_compute. Qed.

End Claims.

(** ** Properties of [lib/comparison.ts] beyond the claims *)

Module ComparisonProperties.

Import Js Json DeckParser Comparison Reference Scenario Notions.
Import JsFacts ParserFacts ComparisonFacts.

Local Open Scope Z_scope.

(** *** [compareDecks] *)

(** [compareDecks] returns exactly when [compareDeck] returns on every
    deck, and then the results are those of the decks, one for each deck
    and in the order of the decks. *)
Theorem compareDecks_elementwise (decks : list PersistedDeck)
    (inv : gmap jsstring Z) (maxMissing : Z) (rs : list DeckComparison) :
  compareDecks decks inv maxMissing = inr rs
  ↔ Forall2 (fun dk r => compareDeck dk inv maxMissing = inr r) decks rs.
Proof.
  revert rs. induction decks as [|dk decks IH]; intros rs; simpl.
  - split.
    + intros [= <-]. constructor.
    + intros Hf. by inversion Hf.
  - destruct (compareDeck dk inv maxMissing) as [e|r] eqn:Hdk.
    + split; [done|]. intros Hf. inversion Hf; congruence.
    + destruct (compareDecks decks inv maxMissing) as [e|rs'] eqn:Hrest.
      * split; [done|]. intros Hf. inversion Hf as [|? r' ? rs'' Hr Hrs]; subst.
        apply IH in Hrs. done.
      * split.
        -- intros [= <-]. constructor; [done|]. by apply IH.
        -- intros Hf. inversion Hf as [|? r' ? rs'' Hr Hrs]; subst.
           apply IH in Hrs. congruence.
Qed.

(** [compareDecks] throws exactly when [compareDeck] throws on some deck,
    and the error is that of the first such deck: the batch is aborted,
    no result of the decks in front of it is returned. *)
Theorem compareDecks_first_error (decks : list PersistedDeck)
    (inv : gmap jsstring Z) (maxMissing : Z) (e : Error) :
  compareDecks decks inv maxMissing = inl e
  ↔ ∃ pre dk post,
      decks = pre ++ dk :: post
      ∧ Forall (fun d => ∃ r, compareDeck d inv maxMissing = inr r) pre
      ∧ compareDeck dk inv maxMissing = inl e.
Proof.
  induction decks as [|dk decks IH]; simpl.
  - split; [done|]. intros (pre & dk & post & Hd & _). by destruct pre.
  - destruct (compareDeck dk inv maxMissing) as [e'|r] eqn:Hdk.
    + split.
      * intros [= <-]. exists [], dk, decks. by repeat split.
      * intros (pre & dk' & post & Hd & Hpre & He).
        destruct pre as [|d pre]; simpl in Hd; injection Hd as <- ->.
        -- congruence.
        -- inversion Hpre as [|? ? [r Hr] _]; subst. congruence.
    + destruct (compareDecks decks inv maxMissing) as [e'|rs] eqn:Hrest.
      * split.
        -- intros [= <-]. destruct (proj1 IH eq_refl) as (pre & dk' & post & -> & Hpre & He).
           exists (dk :: pre), dk', post. split; [done|]. split; [|done].
           constructor; [by exists r|done].
        -- intros (pre & dk' & post & Hd & Hpre & He).
           destruct pre as [|d pre]; simpl in Hd; injection Hd as <- ->.
           ++ congruence.
           ++ inversion Hpre; subst. apply IH. by exists pre, dk', post.
      * split; [done|]. intros (pre & dk' & post & Hd & Hpre & He).
        destruct pre as [|d pre]; simpl in Hd; injection Hd as <- ->.
        -- congruence.
        -- inversion Hpre; subst.
           assert (inr rs = inl e :> Error + list DeckComparison); [|done].
           apply IH. by exists pre, dk', post.
Qed.

(** *** [ensureParsed] and [compareDeck] *)

Lemma compareDeck_ensured (dk : PersistedDeck) (inv : gmap jsstring Z)
    (maxMissing : Z) :
  compareDeck dk inv maxMissing =
  match ensureParsed dk with
  | inl e => inl e
  | inr (hydrated, d) =>
      inr {| deck := hydrated;
             missingCards := reference_missing inv d;
             totalMissing := sum_Z (List.map missing (reference_missing inv d));
             status := classify (sum_Z (List.map missing (reference_missing inv d)))
                                maxMissing |}
  end.
Proof.
  unfold compareDeck. destruct (ensureParsed dk) as [e|[hydrated d]]; [done|].
  by rewrite collect_flattened, compare_loop.
Qed.

Lemma ensureParsed_parsed (dk hydrated : PersistedDeck) (d : DeckExport) :
  ensureParsed dk = inr (hydrated, d) → parsed hydrated = Some d.
Proof.
  unfold ensureParsed. destruct (parsed dk) as [d'|] eqn:Hp.
  - by intros [= <- <-].
  - destruct (is_empty (exportText dk)); [done|].
    destruct (parseExportedDeck (exportText dk)); [done|]. by intros [= <- <-].
Qed.

(** What a comparison that returns is made of. *)
Lemma compareDeck_returns (dk : PersistedDeck) (inv : gmap jsstring Z)
    (maxMissing : Z) (r : DeckComparison) :
  compareDeck dk inv maxMissing = inr r →
  ∃ d, ensureParsed dk = inr (deck r, d)
       ∧ parsed (deck r) = Some d
       ∧ missingCards r = reference_missing inv d
       ∧ totalMissing r = sum_Z (List.map missing (reference_missing inv d))
       ∧ status r = classify (totalMissing r) maxMissing.
Proof.
  rewrite compareDeck_ensured.
  destruct (ensureParsed dk) as [e|[hydrated d]] eqn:He; [done|].
  intros [= <-]. exists d. simpl. split; [done|].
  split; [by eapply ensureParsed_parsed|done].
Qed.

(** [compareDeck] throws in two cases only, both with [parsed] absent:
    the export text is empty too, and the error is the missing-data one,
    naming the deck by its label; or the export text does not parse, and
    the error is the parser's. *)
Theorem compareDeck_error_iff (dk : PersistedDeck) (inv : gmap jsstring Z)
    (maxMissing : Z) (e : Error) :
  compareDeck dk inv maxMissing = inl e
  ↔ parsed dk = None
    ∧ ((exportText dk = [] ∧ e = MissingDataError (label dk))
       ∨ (exportText dk ≠ [] ∧ parseExportedDeck (exportText dk) = inl e)).
Proof.
  rewrite compareDeck_ensured. unfold ensureParsed.
  destruct (parsed dk) as [d|].
  { split; [done|]. by intros [? _]. }
  destruct (exportText dk) as [|c text] eqn:Ht; simpl.
  - split.
    + intros [= <-]. split; [done|]. by left.
    + intros [_ [[_ ->]|[? _]]]; done.
  - destruct (parseExportedDeck (c :: text)) as [e'|d] eqn:Hp.
    + split.
      * intros [= <-]. split; [done|]. by right.
      * intros [_ [[? _]|[_ [= ->]]]]; done.
    + split; [done|]. intros [_ [[? _]|[_ ?]]]; done.
Qed.

(** Comparing a deck that has its export text only gives what comparing
    the same deck with [parsed] filled in by the parser gives, returned
    deck included: parsing ahead of time changes nothing. *)
Theorem compareDeck_hydrated (dk : PersistedDeck) (d : DeckExport)
    (inv : gmap jsstring Z) (maxMissing : Z) :
  parsed dk = None →
  exportText dk ≠ [] →
  parseExportedDeck (exportText dk) = inr d →
  compareDeck dk inv maxMissing = compareDeck (with_parsed dk d) inv maxMissing.
Proof.
  intros Hp Ht Hd. rewrite !compareDeck_ensured. unfold ensureParsed.
  rewrite Hp, Hd. simpl parsed. cbv iota.
  assert (is_empty (exportText dk) = false) as ->
    by by destruct (exportText dk).
  done.
Qed.

Lemma compareDeck_hydrated_witness :
  parseExportedDeck export_text = inr export_deck
  ∧ compareDeck (persisted export_text None) inventory 4
    = compareDeck (with_parsed (persisted export_text None) export_deck)
        inventory 4.
Proof.
  assert (parseExportedDeck export_text = inr export_deck) as Hd
    by by vm_compute.
  split; [exact Hd|].
  apply (compareDeck_hydrated (persisted export_text None) export_deck
           inventory 4 eq_refl); [by vm_compute|exact Hd].
Defined.

(** *** What is missing *)

Lemma in_flattened (d : DeckExport) (r : RequirementEntry) :
  In r (flattened d)
  ↔ ∃ b e, In e (bucket_get d b)
           ∧ r = {| req_count := count e; req_name := name e; req_bucket := b |}.
Proof.
  unfold flattened, tagged. rewrite !in_app_iff, !in_map_iff. split.
  - intros [(e & <- & He)|[(e & <- & He)|[(e & <- & He)|(e & <- & He)]]].
    + by exists BMain, e.
    + by exists BBattlefields, e.
    + by exists BRunes, e.
    + by exists BSideboard, e.
  - intros (b & e & He & ->). destruct b; simpl in He.
    + left. by exists e.
    + right; left. by exists e.
    + right; right; left. by exists e.
    + right; right; right. by exists e.
Qed.

Lemma sum_positive_zero (ms : list MissingCard) :
  Forall (fun m => 0 < missing m) ms →
  sum_Z (List.map missing ms) = 0 ↔ ms = [].
Proof.
  intros Hpos. split; [|by intros ->].
  destruct Hpos as [|m ms Hm Hms]; [done|]. simpl.
  pose proof (sum_Z_nonneg ms Hms). lia.
Qed.

Lemma filter_nil_iff {A} (f : A → bool) (l : list A) :
  List.filter f l = [] ↔ ∀ x, In x l → f x = false.
Proof.
  induction l as [|a l IH]; simpl.
  - split; [by intros _ x []|done].
  - destruct (f a) eqn:Ha.
    + split; [done|]. intros Hall. specialize (Hall a (or_introl eq_refl)).
      congruence.
    + rewrite IH. split.
      * intros Hall x [<-|Hx]; [done|by apply Hall].
      * intros Hall x Hx. apply Hall. by right.
Qed.



Lemma total_as_deficits (inv : gmap jsstring Z) (reqs : list RequirementEntry) :
  sum_Z (List.map missing
           (List.map (missing_card inv) (List.filter (short_of inv) reqs)))
  = sum_Z (List.map (deficit inv) reqs).
Proof.
  induction reqs as [|r reqs IH]; [done|]. simpl.
  unfold short_of at 1, deficit at 1.
  destruct (owned_count inv (req_name r) <? req_count r) eqn:Hs; simpl.
  - apply Z.ltb_lt in Hs. rewrite IH. lia.
  - apply Z.ltb_ge in Hs. rewrite IH. lia.
Qed.

Lemma length_flattened (d : DeckExport) : length (flattened d) = total_entries d.
Proof.
  unfold flattened, tagged, total_entries.
  rewrite !length_app, !List.length_map. lia.
Qed.



Lemma deficit_antitone (inv inv' : gmap jsstring Z) (reqs : list RequirementEntry) :
  inventory_le inv inv' →
  sum_Z (List.map (deficit inv') reqs) ≤ sum_Z (List.map (deficit inv) reqs).
Proof.
  intros Hle. induction reqs as [|r reqs IH]; [done|]. simpl.
  unfold deficit at 1 3. specialize (Hle (req_name r)). lia.
Qed.

Lemma deficits_nonneg (inv : gmap jsstring Z) (reqs : list RequirementEntry) :
  0 ≤ sum_Z (List.map (deficit inv) reqs).
Proof.
  induction reqs as [|r reqs IH]; simpl; [lia|]. unfold deficit at 1. lia.
Qed.

Lemma classify_antitone (t t' m : Z) :
  0 ≤ t' → t' ≤ t → (favour (classify t m) ≤ favour (classify t' m))%nat.
Proof.
  intros H0 Hle. unfold classify.
  destruct (t =? 0) eqn:E1, (t' =? 0) eqn:E2,
           (t <=? m) eqn:E3, (t' <=? m) eqn:E4; simpl; lia.
Qed.



(** *** [normalizeInventory] *)

Section Normalize.
Context `{Host}.

(** An object with a [cards] array is normalized from that array alone:
    whatever else the object holds, a [counts] mapping included, plays no
    part. *)
Theorem normalize_cards_array (fields : list (jsstring * json))
    (items : list json) :
  get_field (str "cards") fields = Some (JArr items) →
  normalizeInventory (JObj fields) = normalizeInventory (JArr items).
Proof.
  intros Hc. unfold normalizeInventory, has_property, get_property.
  cbn [is_array truthy typeof_object array_items andb].
  by rewrite Hc.
Qed.


Lemma record_entry_trimmed (item : json) (nm : jsstring) (z : Z) :
  record_entry item = Some (nm, z) → trimmed nm.
Proof.
  unfold record_entry. destruct item as [| | | | | |fields]; try done.
  destruct (get_field (str "name") fields) as [n|]; [|done].
  destruct (get_field (str "count") fields) as [c|]; [|done].
  destruct (coerced c); [|done].
  destruct (decide (trim (ToString n) = [])); [done|].
  intros [= <- _]. apply trim_trimmed.
Qed.

Lemma contributions_trimmed (items : list json) (k : jsstring) :
  contributions items k ≠ [] → trimmed k.
Proof.
  induction items as [|item items IH]; [done|].
  unfold contributions. cbn [flat_map]. fold (contributions items k).
  destruct (record_entry item) as [[nm z]|] eqn:He; [|exact IH].
  destruct (decide (nm = k)) as [<-|_]; [|exact IH].
  intros _. by apply (record_entry_trimmed item nm z).
Qed.


End Normalize.

Lemma normalize_cards_array_witness :
  get_field (str "cards")
    [(str "user", JStr (str "me"));
     (str "cards", JArr [card_record "Card A" 2; card_record "Card A" 1]);
     (str "counts", JObj [(str "Card B", JNum (Finite (inject_Z 7)))])]
  = Some (JArr [card_record "Card A" 2; card_record "Card A" 1])
  ∧ normalizeInventory (H := integer_host)
      (JObj [(str "user", JStr (str "me"));
             (str "cards", JArr [card_record "Card A" 2; card_record "Card A" 1]);
             (str "counts", JObj [(str "Card B", JNum (Finite (inject_Z 7)))])])
    = normalizeInventory (H := integer_host)
        (JArr [card_record "Card A" 2; card_record "Card A" 1]).
Proof.
  split; [reflexivity|].
  apply (normalize_cards_array (H := integer_host)). reflexivity.
Defined.


End ComparisonProperties.

(** ** Properties of [lib/deckParser.ts] beyond the claims *)

Module ParserProperties.

Import Js DeckParser Reference Scenario Notions.
Import JsFacts ParserFacts.

(** *** Line endings *)

Lemma text_lines_app_crlf a b :
  text_lines (a ++ 13%N :: 10%N :: b) = text_lines a ++ text_lines b.
Proof.
  change (a ++ 13%N :: 10%N :: b) with (a ++ [13%N] ++ 10%N :: b).
  rewrite app_assoc, text_lines_app_lf. f_equal.
  by apply text_lines_snoc_white.
Qed.

Lemma text_lines_unlines_crlf ls :
  text_lines (unlines_crlf ls) = concat (List.map text_lines ls).
Proof.
  induction ls as [|l ls IH]; [done|].
  destruct ls as [|l' ls].
  - simpl. by rewrite app_nil_r.
  - change (unlines_crlf (l :: l' :: ls))
      with (l ++ 13%N :: 10%N :: unlines_crlf (l' :: ls)).
    by rewrite text_lines_app_crlf, IH.
Qed.

(** The parser does not tell CRLF line endings from LF ones: the same
    lines, put together either way, give the same result. *)
Theorem parse_crlf_as_lf (ls : list jsstring) :
  parseExportedDeck (unlines_crlf ls) = parseExportedDeck (unlines ls).
Proof.
  apply parse_same_lines.
  by rewrite text_lines_unlines_crlf, text_lines_unlines.
Qed.

(** *** The first error *)

Lemma parse_loop_first_error rs st e :
  parse_loop st rs = inl e →
  ∃ pre l post,
    data (clean rs) = pre ++ l :: post
    ∧ Forall line_shape pre ∧ ¬ line_shape l ∧ e = ParseError l.
Proof.
  revert st. induction rs as [|r rs IH]; intros [deck section]; [done|].
  rewrite parse_loop_cons, parse_step_eq, clean_cons.
  destruct (blank r); [apply IH|].
  unfold data. simpl List.filter.
  destruct (is_marker (trim r)); simpl negb; cbv iota; [apply IH|].
  destruct (line_shape_dec (trim r)) as [Hs|Hs].
  - rewrite (parseCardLine_shape _ Hs).
    intros (pre & l & post & Hd & Hpre & Hl & ->)%IH.
    exists (trim r :: pre), l, post. unfold data in Hd. rewrite Hd.
    split; [done|]. split; [by constructor|done].
  - rewrite (parseCardLine_not_shape _ Hs). intros [= <-].
    exists [], (trim r), (List.filter (fun l => negb (is_marker l)) (clean rs)).
    by repeat split.
Qed.

(** When the parser throws, the error carries the first data line, in
    the order of the text, that is not well shaped: every data line in
    front of it is. *)
Theorem parse_error_is_first text e :
  parseExportedDeck text = inl e →
  ∃ pre l post,
    data_lines text = pre ++ l :: post
    ∧ Forall line_shape pre ∧ ¬ line_shape l ∧ e = ParseError l.
Proof.
  unfold parseExportedDeck.
  destruct (parse_loop _ _) as [e'|[d' c]] eqn:Hl; [|done].
  intros [= <-]. by apply parse_loop_first_error in Hl.
Qed.

Lemma parse_error_is_first_witness :
  parseExportedDeck (str ("1 Good" ++ LF ++ "bad" ++ LF ++ "worse"))
  = inl (ParseError (str "bad"))
  ∧ ∃ pre l post,
      data_lines (str ("1 Good" ++ LF ++ "bad" ++ LF ++ "worse"))
      = pre ++ l :: post
      ∧ Forall line_shape pre ∧ ¬ line_shape l
      ∧ ParseError (str "bad") = ParseError l.
Proof.
  assert (parseExportedDeck (str ("1 Good" ++ LF ++ "bad" ++ LF ++ "worse"))
          = inl (ParseError (str "bad"))) as Hp by by vm_compute.
  split; [exact Hp|]. exact (parse_error_is_first _ _ Hp).
Defined.

(** *** What the entries of a parsed deck look like *)

Lemma decimal_value_nonneg ds : (0 ≤ decimal_value ds)%Z.
Proof.
  unfold decimal_value.
  enough (∀ acc, (0 ≤ acc)%Z →
            (0 ≤ fold_left (fun acc d => 10 * acc + digit_value d) ds acc)%Z)
    as Hacc by by apply Hacc.
  induction ds as [|d ds IH]; intros acc Hacc; simpl; [done|].
  apply IH. unfold digit_value. lia.
Qed.

Lemma trim_split s : ∃ w1 w2, s = w1 ++ trim s ++ w2 ∧ blank w1 = true ∧ blank w2 = true.
Proof.
  destruct (trimStart_split s) as (w1 & Hs & H1).
  destruct (trimEnd_split (trimStart s)) as (w2 & Ht & H2).
  exists w1, w2. unfold trim. by rewrite <- Ht.
Qed.

Lemma in_clean l rs : In l (clean rs) → l ≠ [] ∧ trimmed l.
Proof.
  unfold clean. intros (r & <- & Hr)%in_map_iff.
  apply filter_In in Hr as [_ Hb]. split; [|apply trim_trimmed].
  intros Hn. apply trim_nil_blank in Hn. by rewrite Hn in Hb.
Qed.

Lemma trimmed_not_blank l : l ≠ [] → trimmed l → blank l = false.
Proof.
  intros Hl Ht. destruct (blank l) eqn:Hb; [|done].
  apply trim_nil_blank in Hb. by rewrite trimmed_trim_id in Hb.
Qed.

(** The name of the entry of a well-shaped, trimmed line. *)
Lemma entry_name_clean l :
  l ≠ [] → trimmed l → line_shape l → clean_name (name (entry_of l)).
Proof.
  intros Hne Ht (ds & ws & nm & -> & Hds & Hdall & Hws & Hwall & Hnm & Hlt).
  unfold entry_of. rewrite shape_span_digits by done. simpl.
  assert (trim (ws ++ nm) = trim nm) as ->.
  { rewrite <- (app_nil_r nm) at 1. apply trim_padded; [|done].
    by apply blank_all_white. }
  destruct (trim_split nm) as (w1 & w2 & Hsplit & H1 & H2).
  split; [|split; [apply trim_trimmed|]].
  - intros Hn. apply trim_nil_blank in Hn.
    destruct Ht as [_ Hlast].
    destruct (last nm) as [c|] eqn:Hc.
    + assert (is_white_space c = false) as Hw.
      { apply Hlast. rewrite !last_app, Hc. done. }
      apply last_Some in Hc as (nm' & ->).
      rewrite blank_app in Hn. simpl in Hn. rewrite Hw in Hn.
      by rewrite andb_false_r in Hn.
    + by apply last_None in Hc.
  - rewrite Hsplit in Hlt. by apply Forall_app in Hlt as [_ [? _]%Forall_app].
Qed.

Lemma in_entries_in b e ps : In e (entries_in b ps) ↔ In (b, e) ps.
Proof.
  unfold entries_in. rewrite in_map_iff. split.
  - intros ([b' e'] & <- & [Hin Hb]%filter_In). simpl in Hb.
    by destruct b', b.
  - intros Hin. exists (b, e). split; [done|]. apply filter_In.
    split; [done|]. by destruct b.
Qed.

Lemma in_bucket_iff ps b e : In e (bucket_get (deck_of ps) b) ↔ In (b, e) ps.
Proof. rewrite <- in_entries_in. by destruct b. Qed.

Lemma in_placements L b e :
  In (b, e) (placements L) →
  ∃ l cursor, In l (data L) ∧ e = entry_of l
              ∧ (cursor = BMain ∨ cursor = BSideboard)
              ∧ b = bucket_of cursor (name e).
Proof.
  unfold placements. rewrite in_flat_map. intros (i & _ & Hi).
  unfold placement in Hi. destruct (L !! i) as [l|] eqn:Hl; [|done].
  destruct (is_marker l) eqn:Hm; [done|].
  destruct Hi as [Hi|[]]. injection Hi as Hb He. subst b e.
  exists l, (cursor_at L i).
  split.
  { apply filter_In. split; [|by rewrite Hm].
    apply list_elem_of_In. by eapply list_elem_of_lookup_2. }
  split; [done|]. split; [|done].
  unfold cursor_at. destruct (existsb _ _); [by right|by left].
Qed.

Lemma in_data l L : In l (data L) → In l L.
Proof. unfold data. by intros [? _]%filter_In. Qed.

(** Where an entry of a parsed deck comes from. *)
Lemma parsed_entry_origin text d b e :
  parseExportedDeck text = inr d →
  In e (bucket_get d b) →
  ∃ l cursor,
    l ≠ [] ∧ trimmed l ∧ line_shape l ∧ e = entry_of l
    ∧ (cursor = BMain ∨ cursor = BSideboard)
    ∧ b = bucket_of cursor (name e).
Proof.
  intros Hp He. pose proof (parse_ok _ _ Hp) as Hall.
  apply parse_result in Hp as ->. unfold parse_spec in He.
  apply in_bucket_iff, in_placements in He
    as (l & cursor & Hl & -> & Hcur & ->).
  exists l, cursor.
  destruct (in_clean l _ (in_data _ _ Hl)) as [Hne Ht].
  split; [done|]. split; [done|]. split; [|done].
  rewrite Forall_forall in Hall. by apply Hall, list_elem_of_In.
Qed.

Lemma bucket_of_classified cursor nm :
  cursor = BMain ∨ cursor = BSideboard →
  (bucket_of cursor nm = BRunes ↔ contains_rune nm = true)
  ∧ (bucket_of cursor nm = BBattlefields
     ↔ contains_rune nm = false ∧ nm ∈ battlefield_list).
Proof.
  intros Hcur. unfold bucket_of.
  destruct (contains_rune nm); [intuition congruence|].
  case_bool_decide; destruct Hcur as [->| ->]; intuition congruence.
Qed.

(** The entries of a parsed deck: the count is not negative; the name is
    not empty, has no white space at either end and no line terminator
    inside; an entry is in [runes] exactly when its name contains "Rune"
    in some letter case, and in [battlefields] exactly when it does not
    and its name is one of the battlefield names. *)
Theorem parsed_entries_classified text d b e :
  parseExportedDeck text = inr d →
  In e (bucket_get d b) →
  (0 ≤ count e)%Z
  ∧ clean_name (name e)
  ∧ (b = BRunes ↔ contains_rune (name e) = true)
  ∧ (b = BBattlefields
     ↔ contains_rune (name e) = false ∧ name e ∈ battlefield_list).
Proof.
  intros Hp He.
  destruct (parsed_entry_origin _ _ _ _ Hp He)
    as (l & cursor & Hne & Ht & Hs & -> & Hcur & ->).
  split; [apply decimal_value_nonneg|].
  split; [by apply entry_name_clean|].
  by apply bucket_of_classified.
Qed.

Lemma parsed_entries_classified_witness :
  parseExportedDeck mixed_text
  = inr {| main := [ {| count := 3; name := acceptable_losses |} ];
           battlefields := [ {| count := 1; name := str "Void Gate" |} ];
           runes := [ {| count := 2; name := str "Rune of Fury" |} ];
           sideboard := [ {| count := 1; name := acceptable_losses |} ] |}
  ∧ (0 ≤ 2)%Z
  ∧ clean_name (str "Rune of Fury")
  ∧ (BRunes = BRunes ↔ contains_rune (str "Rune of Fury") = true)
  ∧ (BRunes = BBattlefields
     ↔ contains_rune (str "Rune of Fury") = false
       ∧ str "Rune of Fury" ∈ battlefield_list).
Proof.
  assert (parseExportedDeck mixed_text
          = inr {| main := [ {| count := 3; name := acceptable_losses |} ];
                   battlefields := [ {| count := 1; name := str "Void Gate" |} ];
                   runes := [ {| count := 2; name := str "Rune of Fury" |} ];
                   sideboard := [ {| count := 1; name := acceptable_losses |} ] |})
    as Hp by by vm_compute.
  split; [exact Hp|].
  apply (parsed_entries_classified mixed_text _ BRunes
           {| count := 2; name := str "Rune of Fury" |} Hp).
  simpl. by left.
Defined.

(** *** The empty deck *)

(** The parser returns the empty deck exactly when the text has no data
    line: nothing but blank lines and section markers. *)
Theorem parse_empty_iff text :
  parseExportedDeck text = inr empty_deck ↔ data_lines text = [].
Proof.
  split.
  - intros Hp. apply parse_result in Hp.
    apply (f_equal total_entries) in Hp. unfold parse_spec in Hp.
    rewrite total_entries_deck_of in Hp. simpl in Hp.
    rewrite <- (List.length_map snd), placements_entries, List.length_map in Hp.
    unfold data_lines. by destruct (data (text_lines text)).
  - intros Hd.
    destruct (parseExportedDeck text) as [e|d] eqn:Hp.
    + apply parse_error in Hp as (l & _ & Hl & _). by rewrite Hd in Hl.
    + apply parse_result in Hp as ->. f_equal. unfold parse_spec.
      pose proof (placements_entries (text_lines text)) as Hpl.
      unfold data_lines in Hd. rewrite Hd in Hpl.
      by destruct (placements (text_lines text)).
Qed.

(** *** Parsing a text made of two texts *)

Lemma parse_loop_app st xs ys :
  parse_loop st (xs ++ ys) =
  match parse_loop st xs with
  | inl e => inl e
  | inr st' => parse_loop st' ys
  end.
Proof.
  revert st. induction xs as [|x xs IH]; intros st; [done|].
  simpl app. rewrite !parse_loop_cons.
  destruct (parse_step st x); [done|apply IH].
Qed.

Lemma bucket_push_deck_app b e d1 d0 :
  bucket_push b e (deck_app d1 d0) = deck_app d1 (bucket_push b e d0).
Proof. destruct b; unfold bucket_push, deck_app; simpl; by rewrite app_assoc. Qed.

(** The loop only appends: what the deck holds at the start stays in
    front. *)
Lemma parse_loop_prefix L d1 d0 c :
  parse_loop (deck_app d1 d0, c) L =
  match parse_loop (d0, c) L with
  | inl e => inl e
  | inr (d, c') => inr (deck_app d1 d, c')
  end.
Proof.
  revert d0 c. induction L as [|r L IH]; intros d0 c; [done|].
  rewrite !parse_loop_cons, !parse_step_eq.
  destruct (blank r); [apply IH|].
  destruct (is_marker (trim r)); [apply IH|].
  destruct (parseCardLine (trim r)) as [e|entry]; [done|].
  rewrite bucket_push_deck_app. apply IH.
Qed.

Lemma deck_app_empty_r d : deck_app d empty_deck = d.
Proof. destruct d. unfold deck_app. simpl. by rewrite !app_nil_r. Qed.

(** Before the marker the sideboard is empty, and the section is never
    anything but [main] or [sideboard]. *)
Lemma parse_loop_section L d c :
  parse_loop (empty_deck, BMain) L = inr (d, c) →
  (c = BMain ∧ sideboard d = []) ∨ c = BSideboard.
Proof.
  revert d c. induction L as [|r L IH] using rev_ind; intros d c.
  - intros [= <- <-]. by left.
  - rewrite parse_loop_snoc.
    destruct (parse_loop (empty_deck, BMain) L) as [e|[d' c']]; [done|].
    specialize (IH d' c' eq_refl). rewrite parse_step_eq.
    destruct (blank r); [by intros [= <- <-]|].
    destruct (is_marker (trim r)); [intros [= <- <-]; by right|].
    destruct (parseCardLine (trim r)) as [e|entry]; [done|].
    intros [= <- <-]. destruct IH as [[-> Hs]| ->]; [left|by right].
    split; [done|]. unfold bucket_of.
    destruct (contains_rune _); [done|]. by destruct (bool_decide _).
Qed.

Lemma to_sideboard_push b e d :
  b ≠ BMain → to_sideboard (bucket_push b e d) = bucket_push b e (to_sideboard d).
Proof.
  destruct b; try done; intros _; unfold to_sideboard, bucket_push; simpl.
  by rewrite app_assoc.
Qed.

(** Run from the sideboard section, the loop does what it does from the
    main section, except that the main cards go to the sideboard. *)
Lemma parse_loop_from_sideboard L :
  parse_loop (empty_deck, BSideboard) L =
  match parse_loop (empty_deck, BMain) L with
  | inl e => inl e
  | inr (d, _) => inr (to_sideboard d, BSideboard)
  end.
Proof.
  induction L as [|r L IH] using rev_ind; [done|].
  rewrite !parse_loop_snoc, IH.
  destruct (parse_loop (empty_deck, BMain) L) as [e|[d c]] eqn:HL; [done|].
  apply parse_loop_section in HL. rewrite !parse_step_eq.
  destruct (blank r); [done|].
  destruct (is_marker (trim r)); [done|].
  destruct (parseCardLine (trim r)) as [e|entry]; [done|].
  f_equal. f_equal. unfold bucket_of.
  destruct (contains_rune _); [by rewrite to_sideboard_push|].
  destruct (bool_decide _); [by rewrite to_sideboard_push|].
  destruct HL as [[-> Hs]| ->]; [|by rewrite to_sideboard_push].
  unfold to_sideboard, bucket_push. simpl. rewrite Hs.
  by rewrite !app_nil_r.
Qed.

Lemma parse_loop_chomp st ls : parse_loop st (chomp ls) = parse_loop st ls.
Proof.
  by rewrite <- (parse_loop_clean st (chomp ls)), clean_chomp, parse_loop_clean.
Qed.

(** Parsing two texts put one after the other, on separate lines: the
    parse fails with the error of the first text, or else of the second;
    otherwise the buckets of the second deck come after those of the
    first, bucket by bucket, except that, when the first text has a
    section marker, the main cards of the second text go to the sideboard,
    in front of its own sideboard cards. *)
Theorem parse_concat (a b : jsstring) :
  parseExportedDeck (a ++ 10%N :: b) =
  match parseExportedDeck a with
  | inl e => inl e
  | inr da =>
      match parseExportedDeck b with
      | inl e => inl e
      | inr db =>
          inr (deck_app da (if has_marker a then to_sideboard db else db))
      end
  end.
Proof.
  unfold parseExportedDeck.
  rewrite split_lines_app_lf, parse_loop_app, parse_loop_chomp.
  destruct (parse_loop (empty_deck, BMain) (split_lines a))
    as [e|[da ca]] eqn:Ha; [done|].
  pose proof (parse_loop_result _ _ Ha) as [= _ Hc].
  rewrite cursor_at_end in Hc. fold (text_lines a) in Hc. fold (has_marker a) in Hc.
  rewrite <- (deck_app_empty_r da) at 1. rewrite parse_loop_prefix.
  destruct (has_marker a); subst ca.
  - rewrite parse_loop_from_sideboard.
    by destruct (parse_loop (empty_deck, BMain) (split_lines b)) as [e|[db cb]].
  - by destruct (parse_loop (empty_deck, BMain) (split_lines b)) as [e|[db cb]].
Qed.

End ParserProperties.

(** ** Properties of the tools around the library *)

Module ToolProperties.

Import Js Json DeckParser Comparison Reference Scenario.
Import InventoryScraper Dashboard Notions.
Import JsFacts ParserFacts ComparisonFacts.
Import ComparisonProperties ParserProperties.

Local Open Scope Z_scope.

(** *** [aggregateCounts] *)

Section Scraper.
Context `{Host}.

Lemma coerced_integer (z : Z) :
  coerced (JNum (Finite (inject_Z z))) = Some (Z.max 0 z).
Proof. unfold coerced, ToNumber. by rewrite Qfloor_Z. Qed.

Lemma add_record_card (acc : gmap jsstring Z) (card : InventoryCard)
    (item : json) :
  encodes_card card item → add_record acc item = add_card acc card.
Proof.
  intros (fields & -> & Hn & Hc). rewrite add_record_entry.
  unfold record_entry, add_card. rewrite Hn, Hc, coerced_integer.
  simpl ToString.
  destruct (decide (trim (ic_name card) = [])) as [->|Hne]; [done|].
  by destruct (trim (ic_name card)).
Qed.

Lemma fold_add_record_cards (acc : gmap jsstring Z)
    (cards : list InventoryCard) (items : list json) :
  Forall2 encodes_card cards items →
  foldl add_record acc items = foldl add_card acc cards.
Proof.
  intros Hf. revert acc.
  induction Hf as [|card item cards items Hc _ IH]; intros acc; [done|].
  simpl. by rewrite (add_record_card _ card), IH.
Qed.

Lemma add_card_normal acc card : normal acc → normal (add_card acc card).
Proof.
  intros Hacc. unfold add_card.
  destruct (trim (ic_name card)) as [|c key] eqn:Hk; [done|]. simpl.
  intros k z. destruct (decide (c :: key = k)) as [<-|Hne].
  - rewrite lookup_insert_eq. intros [= <-]. split; [done|].
    destruct (acc !! (c :: key)) as [z0|] eqn:H0; simpl; [|lia].
    apply Hacc in H0 as [_ H0]. lia.
  - rewrite lookup_insert_ne by done. apply Hacc.
Qed.

Lemma aggregateCounts_normal cards : normal (aggregateCounts cards).
Proof.
  apply foldl_normal; [apply add_card_normal|].
  intros k z. by rewrite lookup_empty.
Qed.


End Scraper.

(** *** [totalCopies] *)

Lemma totalCopies_insert (m : gmap jsstring Z) (k : jsstring) (z : Z) :
  totalCopies (<[k := z]> m) = totalCopies m - default 0 (m !! k) + z.
Proof.
  unfold totalCopies.
  assert (∀ (j1 j2 : jsstring) (z1 z2 y : Z), y + z2 + z1 = y + z1 + z2)
    as Hcomm by (intros; lia).
  rewrite <- insert_delete_eq.
  rewrite map_fold_insert_L; [|by intros; apply Hcomm|by rewrite lookup_delete_eq].
  destruct (m !! k) as [z0|] eqn:Hk; simpl.
  - rewrite (map_fold_delete_L _ _ k z0 m); [lia|by intros; apply Hcomm|done].
  - rewrite delete_id by done. lia.
Qed.

Lemma totalCopies_fold (acc : gmap jsstring Z) (cards : list InventoryCard) :
  totalCopies (foldl add_card acc cards)
  = totalCopies acc
    + sum_Z (List.map (fun c => Z.max 0 (ic_count c)) (List.filter named cards)).
Proof.
  revert acc. induction cards as [|card cards IH]; intros acc; simpl; [lia|].
  rewrite IH. unfold add_card at 1, named at 2.
  rewrite <- is_empty_trim.
  destruct (is_empty (trim (ic_name card))); simpl; [done|].
  rewrite totalCopies_insert. lia.
Qed.



(** *** The summary of the statuses *)

Lemma count_status_eq (acc : StatusCounts) (r : DeckComparison) :
  count_status acc r =
  {| n_buildable := n_buildable acc + with_status buildable [r];
     n_close := n_close acc + with_status close [r];
     n_unbuildable := n_unbuildable acc + with_status unbuildable [r] |}.
Proof.
  unfold count_status, with_status. simpl.
  destruct acc, (status r); simpl; f_equal; lia.
Qed.

Lemma with_status_cons s r rs :
  with_status s (r :: rs) = with_status s [r] + with_status s rs.
Proof.
  unfold with_status. simpl. destruct (bool_decide (status r = s)); simpl; lia.
Qed.

Lemma summary_fold (acc : StatusCounts) (rs : list DeckComparison) :
  foldl count_status acc rs =
  {| n_buildable := n_buildable acc + with_status buildable rs;
     n_close := n_close acc + with_status close rs;
     n_unbuildable := n_unbuildable acc + with_status unbuildable rs |}.
Proof.
  revert acc. induction rs as [|r rs IH]; intros acc.
  - simpl. destruct acc. unfold with_status. simpl. f_equal; lia.
  - simpl. rewrite IH, count_status_eq, !(with_status_cons _ r rs). simpl.
    f_equal; lia.
Qed.

Lemma with_status_total rs :
  with_status buildable rs + with_status close rs + with_status unbuildable rs
  = Z.of_nat (length rs).
Proof.
  induction rs as [|r rs IH]; [done|].
  rewrite !(with_status_cons _ r rs). simpl length.
  unfold with_status at 1 3 5. simpl. destruct (status r); simpl; lia.
Qed.

(** Each number of the summary is the number of comparisons with that
    status, and the three add up to the number of decks compared: no deck
    is left out or counted twice. *)
Theorem summary_counts_every_deck (rs : list DeckComparison) :
  n_buildable (summaryCounts rs) = with_status buildable rs
  ∧ n_close (summaryCounts rs) = with_status close rs
  ∧ n_unbuildable (summaryCounts rs) = with_status unbuildable rs
  ∧ n_buildable (summaryCounts rs) + n_close (summaryCounts rs)
    + n_unbuildable (summaryCounts rs) = Z.of_nat (length rs).
Proof.
  unfold summaryCounts. rewrite summary_fold. simpl.
  repeat split; try done. apply with_status_total.
Qed.

(** *** Missing cards by bucket *)

Lemma grouped_fold (acc : DeckBucket → option (list MissingCard))
    (ms : list MissingCard) (b : DeckBucket) :
  foldl group_card acc ms b =
  match missing_in b ms with
  | [] => acc b
  | found => Some (default [] (acc b) ++ found)
  end.
Proof.
  revert acc. induction ms as [|m ms IH]; intros acc; [done|].
  cbn [foldl]. rewrite IH. unfold missing_in, group_card. simpl.
  destruct (decide (mc_bucket m = b)) as [<-|Hne].
  - rewrite !bool_decide_eq_true_2 by done. simpl.
    destruct (List.filter _ ms); [done|]. by rewrite <- app_assoc.
  - rewrite (bool_decide_eq_false_2 (mc_bucket m = b)) by done.
    by rewrite (bool_decide_eq_false_2 (b = mc_bucket m)) by done.
Qed.

(** The grouping shown in the deck details holds, for each bucket, the
    missing cards of that bucket in their order, and nothing for a bucket
    without missing cards: the same cards that the export lists for the
    bucket. *)
Theorem grouped_missing_by_bucket (entry : DeckComparison) (b : DeckBucket) :
  groupedMissing entry b =
  match missing_in b (missingCards entry) with
  | [] => None
  | found => Some found
  end
  ∧ bucket_section entry b =
    match missing_in b (missingCards entry) with
    | [] => None
    | found => Some (join_with [10%N] (List.map card_line found))
    end.
Proof.
  split.
  - unfold groupedMissing. rewrite grouped_fold. done.
  - unfold bucket_section. fold (missing_in b (missingCards entry)).
    by destruct (missing_in b (missingCards entry)).
Qed.

(** *** Numbers as text *)

Lemma decimal_value_snoc ds d :
  decimal_value (ds ++ [d]) = 10 * decimal_value ds + digit_value d.
Proof. unfold decimal_value. by rewrite fold_left_app. Qed.

Lemma digits_of_spec fuel n :
  (0 < fuel)%nat →
  (n < 2 ^ N.of_nat fuel)%N →
  digits_of fuel n ≠ []
  ∧ Forall (fun c => is_digit c = true) (digits_of fuel n)
  ∧ decimal_value (digits_of fuel n) = Z.of_N n.
Proof.
  revert n. induction fuel as [|fuel IH]; intros n Hfuel Hn; [lia|].
  cbn [digits_of]. destruct (n <? 10)%N eqn:Hlt.
  - apply N.ltb_lt in Hlt. split; [done|]. split.
    + constructor; [|done]. unfold is_digit.
      apply andb_true_intro. split; apply N.leb_le; lia.
    + unfold decimal_value, digit_value. simpl. lia.
  - apply N.ltb_ge in Hlt.
    assert (n / 10 < 2 ^ N.of_nat fuel)%N as Hdiv.
    { rewrite Nat2N.inj_succ, N.pow_succ_r' in Hn.
      apply N.Div0.div_lt_upper_bound. lia. }
    assert (0 < fuel)%nat as Hpos.
    { destruct fuel; [|lia]. simpl in Hdiv.
      assert (1 ≤ n / 10)%N by (apply N.div_le_lower_bound; lia). lia. }
    destruct (IH _ Hpos Hdiv) as (Hne & Hall & Hval).
    pose proof (N.mod_upper_bound n 10 ltac:(lia)) as Hmod.
    pose proof (N.div_mod n 10 ltac:(lia)) as Hdm.
    generalize dependent (n mod 10)%N. intros r Hr Hdm.
    generalize dependent (n / 10)%N. intros q Hq Hne Hall Hval Hdm.
    split; [by destruct (digits_of fuel q)|]. split.
    + apply Forall_app. split; [done|]. constructor; [|done].
      unfold is_digit. apply andb_true_intro. split; apply N.leb_le; lia.
    + rewrite decimal_value_snoc, Hval. unfold digit_value. lia.
Qed.

(** The text of a positive integer: digits only, that read back as the
    integer. *)
Lemma number_text_positive z :
  0 < z →
  number_text z ≠ []
  ∧ Forall (fun c => is_digit c = true) (number_text z)
  ∧ decimal_value (number_text z) = z.
Proof.
  intros Hz. unfold number_text.
  assert ((z <? 0) = false) as -> by lia.
  destruct (digits_of_spec (S (N.to_nat (N.log2 (Z.to_N (Z.abs z)))))
              (Z.to_N (Z.abs z))) as (Hne & Hall & Hval); [lia| |].
  { rewrite Nat2N.inj_succ, N2Nat.id.
    apply N.log2_spec. lia. }
  split; [done|]. split; [done|]. rewrite Hval. lia.
Qed.

(** *** The lines of the export *)

Lemma split_lines_single s :
  Forall (fun c => c ≠ 10%N) s → split_lines s = [s].
Proof.
  induction 1 as [|c s Hc Hs IH]; [done|].
  rewrite split_lines_cons.
  apply N.eqb_neq in Hc as ->.
  destruct s as [|c' s]; [done|].
  inversion Hs as [|? ? Hc' _]; subst. apply N.eqb_neq in Hc' as Hn.
  rewrite Hn, andb_false_r. by rewrite IH.
Qed.

Lemma not_terminator_not_lf c : is_line_terminator c = false → c ≠ 10%N.
Proof. intros Hc ->. done. Qed.

Lemma digit_not_white c : is_digit c = true → is_white_space c = false.
Proof.
  intros Hd. destruct (is_white_space c) eqn:Hw; [|done].
  apply white_not_digit in Hw. congruence.
Qed.

Lemma digit_not_lf c : is_digit c = true → c ≠ 10%N.
Proof. intros Hd ->. done. Qed.

Section CardLine.
Variable m : MissingCard.
Hypothesis Hm : exportable m.

Lemma card_line_no_lf : Forall (fun c => c ≠ 10%N) (card_line m).
Proof.
  destruct Hm as (Hpos & (_ & _ & Hlt) & _).
  destruct (number_text_positive _ Hpos) as (_ & Hall & _).
  unfold card_line. apply Forall_app. split.
  - eapply Forall_impl; [exact Hall|]. apply digit_not_lf.
  - constructor; [done|]. eapply Forall_impl; [exact Hlt|].
    apply not_terminator_not_lf.
Qed.

Lemma card_line_trimmed : card_line m ≠ [] ∧ trimmed (card_line m).
Proof.
  destruct Hm as (Hpos & (Hne & [_ Hlast] & _) & _).
  destruct (number_text_positive _ Hpos) as (Hd & Hall & _).
  unfold card_line. split; [by destruct (number_text (missing m))|].
  split; intros c Hc.
  - destruct (number_text (missing m)) as [|d ds]; [done|].
    simpl in Hc. injection Hc as <-. apply digit_not_white.
    by inversion Hall.
  - apply Hlast. rewrite last_app in Hc.
    destruct (mc_name m) as [|x nm] eqn:Hn; [done|].
    change (32%N :: x :: nm) with ([32%N] ++ x :: nm) in Hc.
    rewrite last_app in Hc.
    destruct (last (x :: nm)) eqn:Hl; [done|]. by apply last_None in Hl.
Qed.

Lemma card_line_shape : line_shape (card_line m).
Proof.
  destruct Hm as (Hpos & (Hne & _ & Hlt) & _).
  destruct (number_text_positive _ Hpos) as (Hd & Hall & _).
  exists (number_text (missing m)), [32%N], (mc_name m).
  split; [done|]. split; [done|]. split; [done|]. split; [done|].
  split; [by repeat constructor|]. by split.
Qed.

Lemma card_line_entry : entry_of (card_line m) = missing_entry m.
Proof.
  destruct Hm as (Hpos & (Hne & Ht & Hlt) & _).
  destruct (number_text_positive _ Hpos) as (Hd & Hall & Hval).
  unfold entry_of, card_line, missing_entry.
  rewrite (shape_span_digits _ [32%N] (mc_name m)); [|done|done|by repeat constructor].
  simpl. rewrite Hval. f_equal.
  rewrite trim_cons_white by done. by apply trimmed_trim_id.
Qed.

Lemma card_line_not_marker : is_marker (card_line m) = false.
Proof.
  destruct Hm as (Hpos & _).
  destruct (number_text_positive _ Hpos) as (Hd & Hall & _).
  unfold is_marker, card_line.
  destruct (number_text (missing m)) as [|d ds]; [done|].
  inversion Hall as [|? ? Hdig _]; subst.
  assert (lower_ascii d ≠ 115%N) as Hs.
  { unfold is_digit in Hdig. apply andb_prop in Hdig as [H1 H2].
    apply N.leb_le in H1. apply N.leb_le in H2. unfold lower_ascii.
    destruct ((65 <=? d)%N && (d <=? 90)%N) eqn:Hu; [|lia].
    apply andb_prop in Hu as [H3 _]. apply N.leb_le in H3. lia. }
  rewrite !bool_decide_eq_false_2; [done|..];
    intros Heq; simpl in Heq; injection Heq as Heq _; done.
Qed.

Lemma card_line_text_lines : text_lines (card_line m) = [card_line m].
Proof.
  destruct card_line_trimmed as [Hne Ht].
  unfold text_lines. rewrite split_lines_single by apply card_line_no_lf.
  rewrite clean_cons. rewrite (trimmed_not_blank _ Hne Ht). simpl.
  by rewrite trimmed_trim_id.
Qed.

(** One iteration of the parser's loop on a line of the export, in the
    main section. *)
Lemma parse_step_card_line deck :
  parse_step (deck, BMain) (card_line m)
  = inr (bucket_push (match mc_bucket m with BSideboard => BMain | b => b end)
                     (missing_entry m) deck, BMain).
Proof.
  destruct card_line_trimmed as [Hne Ht].
  rewrite parse_step_eq, (trimmed_not_blank _ Hne Ht), trimmed_trim_id by done.
  rewrite card_line_not_marker, (parseCardLine_shape _ card_line_shape).
  rewrite card_line_entry. f_equal. f_equal.
  destruct Hm as (_ & _ & Hr & Hb). unfold bucket_of, missing_entry. simpl.
  destruct (contains_rune (mc_name m)).
  { by rewrite (proj2 Hr eq_refl). }
  case_bool_decide as Hin.
  { by rewrite (proj2 Hb (conj eq_refl Hin)). }
  destruct (mc_bucket m); try done.
  - by destruct (proj1 Hb eq_refl).
  - by destruct Hr as [Hr _]; specialize (Hr eq_refl).
Qed.

End CardLine.

(** *** The export as a text *)

Lemma text_lines_nil : text_lines [] = [].
Proof. done. Qed.

Lemma text_lines_sections (ss : list jsstring) :
  text_lines (join_with [10%N; 10%N] ss) = concat (List.map text_lines ss).
Proof.
  induction ss as [|p ss IH]; [done|].
  destruct ss as [|q ss].
  - simpl. by rewrite app_nil_r.
  - change (join_with [10%N; 10%N] (p :: q :: ss))
      with (p ++ 10%N :: ([] ++ 10%N :: join_with [10%N; 10%N] (q :: ss))).
    by rewrite !text_lines_app_lf, IH.
Qed.

Lemma text_lines_card_lines (ms : list MissingCard) :
  Forall exportable ms →
  text_lines (join_with [10%N] (List.map card_line ms)) = List.map card_line ms.
Proof.
  intros Hall. change (join_with [10%N]) with unlines.
  rewrite text_lines_unlines.
  induction Hall as [|m ms Hm _ IH]; [done|].
  simpl. by rewrite (card_line_text_lines m Hm), IH.
Qed.

Lemma join_nonempty (sep p : jsstring) (ps : list jsstring) :
  p ≠ [] → is_empty (join_with sep (p :: ps)) = false.
Proof. intros Hp. destruct ps; simpl; by destruct p. Qed.

Lemma card_line_nonempty (m : MissingCard) : card_line m ≠ [].
Proof. unfold card_line. by destruct (number_text (missing m)). Qed.

Lemma keep_bucket_section (entry : DeckComparison) (b : DeckBucket) :
  keep_section (bucket_section entry b) =
  match missing_in b (missingCards entry) with
  | [] => []
  | found => [join_with [10%N] (List.map card_line found)]
  end.
Proof.
  unfold bucket_section. fold (missing_in b (missingCards entry)).
  destruct (missing_in b (missingCards entry)) as [|m found]; [done|].
  cbn [length Nat.eqb keep_section List.map].
  by rewrite join_nonempty by apply card_line_nonempty.
Qed.

Lemma missing_in_exportable b ms :
  Forall exportable ms → Forall exportable (missing_in b ms).
Proof.
  rewrite !Forall_forall. intros Hall m Hm. apply Hall.
  apply list_elem_of_In in Hm. apply list_elem_of_In.
  unfold missing_in in Hm. by apply filter_In in Hm as [? _].
Qed.

Lemma section_lines (entry : DeckComparison) (b : DeckBucket) :
  Forall exportable (missingCards entry) →
  concat (List.map text_lines (keep_section (bucket_section entry b)))
  = List.map card_line (missing_in b (missingCards entry)).
Proof.
  intros Hall. rewrite keep_bucket_section.
  pose proof (missing_in_exportable b _ Hall) as Hb.
  destruct (missing_in b (missingCards entry)) as [|m found] eqn:Hf; [done|].
  etransitivity; [|exact (text_lines_card_lines _ Hb)].
  cbn [List.map concat]. by rewrite app_nil_r.
Qed.

Lemma export_text_lines (entry : DeckComparison) :
  Forall exportable (missingCards entry) →
  text_lines (formatMissingCardsForExport entry)
  = List.map card_line (export_order (missingCards entry)).
Proof.
  intros Hall. unfold formatMissingCardsForExport, missingBucketOrder.
  rewrite text_lines_sections. cbn [List.map flat_map].
  rewrite app_nil_r, !List.map_app, !concat_app, !section_lines by done.
  unfold export_order. by rewrite !List.map_app.
Qed.

(** *** The export read by the parser *)

Lemma parse_loop_card_lines (ms : list MissingCard) (d0 : DeckExport) :
  Forall exportable ms →
  parse_loop (d0, BMain) (List.map card_line ms)
  = inr (foldl reparse_push d0 ms, BMain).
Proof.
  intros Hall. revert d0. induction Hall as [|m ms Hm _ IH]; intros d0; [done|].
  cbn [List.map foldl]. rewrite parse_loop_cons, (parse_step_card_line m Hm).
  apply IH.
Qed.

Lemma missing_in_bucket b ms : Forall (fun m => mc_bucket m = b) (missing_in b ms).
Proof.
  apply Forall_forall. intros m Hm. apply list_elem_of_In in Hm.
  unfold missing_in in Hm. apply filter_In in Hm as [_ Hm].
  by apply bool_decide_eq_true in Hm.
Qed.

Lemma reparse_block (b : DeckBucket) (ms : list MissingCard) (d : DeckExport) :
  Forall (fun m => mc_bucket m = b) ms →
  foldl reparse_push d ms =
  match b with
  | BMain | BSideboard =>
      {| main := main d ++ List.map missing_entry ms;
         battlefields := battlefields d; runes := runes d;
         sideboard := sideboard d |}
  | BBattlefields =>
      {| main := main d;
         battlefields := battlefields d ++ List.map missing_entry ms;
         runes := runes d; sideboard := sideboard d |}
  | BRunes =>
      {| main := main d; battlefields := battlefields d;
         runes := runes d ++ List.map missing_entry ms;
         sideboard := sideboard d |}
  end.
Proof.
  intros Hb. revert d. induction Hb as [|m ms Hm _ IH]; intros d.
  - destruct d, b; simpl; by rewrite app_nil_r.
  - cbn [foldl]. rewrite IH. unfold reparse_push. rewrite Hm.
    destruct b; simpl; by rewrite <- app_assoc.
Qed.

Lemma reparse_export_order (ms : list MissingCard) :
  foldl reparse_push empty_deck (export_order ms) = missing_deck ms.
Proof.
  unfold export_order. rewrite !foldl_app.
  rewrite (reparse_block BSideboard) by apply missing_in_bucket.
  rewrite (reparse_block BRunes) by apply missing_in_bucket.
  rewrite (reparse_block BBattlefields) by apply missing_in_bucket.
  rewrite (reparse_block BMain) by apply missing_in_bucket.
  unfold missing_deck. simpl. by rewrite List.map_app.
Qed.

Lemma export_order_exportable ms :
  Forall exportable ms → Forall exportable (export_order ms).
Proof.
  intros Hall. unfold export_order.
  rewrite !Forall_app. repeat split; by apply missing_in_exportable.
Qed.

Lemma export_parses (entry : DeckComparison) :
  Forall exportable (missingCards entry) →
  parseExportedDeck (formatMissingCardsForExport entry)
  = inr (missing_deck (missingCards entry)).
Proof.
  intros Hall. unfold parseExportedDeck.
  rewrite <- parse_loop_clean. fold (text_lines (formatMissingCardsForExport entry)).
  rewrite export_text_lines by done.
  rewrite parse_loop_card_lines by by apply export_order_exportable.
  by rewrite reparse_export_order.
Qed.

Lemma sum_missing_by_bucket (ms : list MissingCard) :
  sum_Z (List.map missing ms)
  = sum_Z (List.map missing (missing_in BMain ms))
    + sum_Z (List.map missing (missing_in BBattlefields ms))
    + sum_Z (List.map missing (missing_in BRunes ms))
    + sum_Z (List.map missing (missing_in BSideboard ms)).
Proof.
  induction ms as [|m ms IH]; [done|].
  unfold missing_in in *. simpl. rewrite IH.
  destruct (mc_bucket m); simpl; lia.
Qed.

Lemma total_count_missing_deck (ms : list MissingCard) :
  total_count (missing_deck ms) = sum_Z (List.map missing ms).
Proof.
  unfold total_count, all_entries, missing_deck. simpl.
  rewrite app_nil_r, !List.map_app, !List.map_map, !sum_Z_app. simpl.
  change (fun x : MissingCard => missing x) with missing.
  rewrite (sum_missing_by_bucket ms). lia.
Qed.

(** The missing cards of a deck that came out of the parser can all be
    exported. *)
Lemma parsed_missing_exportable (text : jsstring) (d : DeckExport)
    (inv : gmap jsstring Z) :
  parseExportedDeck text = inr d →
  Forall exportable (reference_missing inv d).
Proof.
  intros Hp. apply Forall_forall. intros m Hm. apply list_elem_of_In in Hm.
  unfold reference_missing in Hm. apply in_map_iff in Hm as (r & <- & Hr).
  apply filter_In in Hr as [Hr Hshort].
  apply in_flattened in Hr as (b & e & He & ->).
  destruct (parsed_entry_origin _ _ _ _ Hp He)
    as (l & cursor & Hne & Ht & Hs & -> & Hcur & ->).
  unfold exportable, missing_card. simpl.
  unfold short_of in Hshort. simpl in Hshort. apply Z.ltb_lt in Hshort.
  split; [lia|]. split; [by apply entry_name_clean|].
  by apply bucket_of_classified.
Qed.



Lemma keep_section_nonempty (section : option jsstring) :
  Forall (fun text => text ≠ []) (keep_section section).
Proof.
  destruct section as [text|]; [|constructor]. simpl.
  destruct text; repeat constructor. done.
Qed.

Lemma join_nil (sep : jsstring) (ps : list jsstring) :
  Forall (fun p => p ≠ []) ps → join_with sep ps = [] → ps = [].
Proof.
  intros Hall Hj. destruct Hall as [|p ps Hp _]; [done|].
  pose proof (join_nonempty sep p ps Hp) as Hne. by rewrite Hj in Hne.
Qed.

Lemma flat_map_nil {A B} (f : A → list B) (l : list A) (a : A) :
  flat_map f l = [] → In a l → f a = [].
Proof.
  induction l as [|x l IH]; [done|]. simpl.
  intros [Hx Hl]%app_eq_nil [<-|Ha]; [done|by apply IH].
Qed.

(** The export is the empty text exactly when no card is missing. *)
Theorem export_empty_iff (entry : DeckComparison) :
  formatMissingCardsForExport entry = [] ↔ missingCards entry = [].
Proof.
  unfold formatMissingCardsForExport. split.
  - intros Hnil. apply join_nil in Hnil.
    + destruct (missingCards entry) as [|m ms] eqn:Hms; [done|].
      rewrite flat_map_concat_map, List.map_map, <- flat_map_concat_map in Hnil.
      apply (flat_map_nil _ _ (mc_bucket m)) in Hnil.
      * cbv beta in Hnil. rewrite keep_bucket_section, Hms in Hnil.
        unfold missing_in in Hnil. simpl in Hnil.
        by rewrite bool_decide_eq_true_2 in Hnil.
      * unfold missingBucketOrder. destruct (mc_bucket m); simpl; tauto.
    + apply Forall_flat_map, Forall_forall. intros section _.
      apply keep_section_nonempty.
  - intros Hms. unfold bucket_section, missingBucketOrder. by rewrite Hms.
Qed.

(** *** Parser and comparison together *)

Lemma sum_flattened_counts (d : DeckExport) :
  sum_Z (List.map req_count (flattened d)) = total_count d.
Proof.
  unfold flattened, tagged, total_count, all_entries.
  by rewrite !List.map_app, !List.map_map.
Qed.



End ToolProperties.

(** ** Properties of the command lines *)

Module CliProperties.

Import Js Json Comparison Reference Notions Cli.
Import JsFacts ComparisonFacts.

(** *** Numeric options *)

Lemma at_least_weaken (z z' : Z) (x : number) :
  (z' ≤ z)%Z → at_least z x → at_least z' x.
Proof.
  intros Hz. destruct x as [|[]|q]; simpl; try done.
  intros (n & -> & Hn). exists n. split; [done|lia].
Qed.

Lemma numeric_option_at_least `{Host} (least : Z) (value : jsstring)
    (former : number) :
  at_least least former → at_least least (numeric_option least value former).
Proof.
  intros Hf. unfold numeric_option.
  destruct (StringToNumber value) as [|[]|q]; simpl; try done.
  - exists least. split; [done|lia].
  - destruct (Qle_bool (inject_Z least) (inject_Z (Qfloor q))) eqn:Hle.
    + exists (Qfloor q). split; [done|].
      apply Qle_bool_iff in Hle. by rewrite Zle_Qle.
    + exists least. split; [done|lia].
Qed.

(** *** The loop over the arguments *)

Lemma for_each_from_invariant {S : Type} (P : list jsstring → S → Prop)
    (f : S → jsstring → nat → S) (seen rest : list jsstring) (st : S) :
  (∀ seen arg st, P seen st → P (seen ++ [arg]) (f st arg (length seen))) →
  P seen st →
  P (seen ++ rest) (for_each_from f (length seen) rest st).
Proof.
  intros Hstep. revert seen st.
  induction rest as [|arg rest IH]; intros seen st Hst.
  - by rewrite app_nil_r.
  - simpl. replace (seen ++ arg :: rest) with ((seen ++ [arg]) ++ rest)
      by by rewrite <- app_assoc.
    replace (Datatypes.S (length seen)) with (length (seen ++ [arg]))
      by (rewrite length_app; simpl; lia).
    apply IH. by apply Hstep.
Qed.

Lemma for_each_invariant {S : Type} (P : list jsstring → S → Prop)
    (f : S → jsstring → nat → S) (argv : list jsstring) (st : S) :
  (∀ seen arg st, P seen st → P (seen ++ [arg]) (f st arg (length seen))) →
  P [] st →
  P argv (for_each argv f st).
Proof.
  intros Hstep Hst. apply (for_each_from_invariant P f [] argv st Hstep Hst).
Qed.

Lemma is_flag_true (flag : string) (arg : jsstring) :
  is_flag flag arg = true ↔ arg = str flag.
Proof. apply bool_decide_eq_true. Qed.

(** *** The comparison tool *)

Section CompareArgs.
Context `{Host}.
Variable resolve : jsstring → jsstring.

(** The threshold of the comparison tool is never [NaN] and never
    negative: it is a whole number that is at least 0, or plus infinity;
    and it is 4 when no argument is [--max-missing]. *)
Theorem compare_threshold (argv : list jsstring) :
  at_least 0 (Compare.maxMissing (Compare.parseCompareArgs resolve argv))
  ∧ (¬ In (str "--max-missing") argv →
     Compare.maxMissing (Compare.parseCompareArgs resolve argv) = Finite 4).
Proof.
  unfold Compare.parseCompareArgs.
  apply (for_each_invariant
           (fun seen o =>
              at_least 0 (Compare.maxMissing o)
              ∧ (¬ In (str "--max-missing") seen →
                 Compare.maxMissing o = Finite 4))).
  - intros seen arg o [Hle Hdef]. unfold Compare.on_arg.
    destruct (next argv (length seen)) as [value|]; simpl.
    + destruct (is_flag "--max-missing" arg) eqn:Hflag.
      * apply is_flag_true in Hflag as ->.
        destruct (is_flag "--decks" _), (is_flag "--inventory" _),
                 (is_flag "--json" _); simpl;
          (split; [by apply numeric_option_at_least|];
           intros Hnot; destruct Hnot; apply in_app_iff; right; by left).
      * assert (arg ≠ str "--max-missing") as Hne.
        { intros ->. unfold is_flag in Hflag.
          by rewrite bool_decide_eq_true_2 in Hflag. }
        destruct (is_flag "--decks" _), (is_flag "--inventory" _),
                 (is_flag "--json" _); simpl;
          (split; [done|]; intros Hnot; apply Hdef; intros Hin;
           apply Hnot, in_app_iff; by left).
    + split; [done|]. intros Hnot. apply Hdef. intros Hin.
      apply Hnot, in_app_iff. by left.
  - simpl. split; [|done]. exists 4%Z. split; [done|lia].
Qed.

End CompareArgs.

(** *** The deck scraper *)

Section ScrapeArgs.
Context `{Host}.
Variable resolve : jsstring → jsstring.

Lemma in_snoc {A} (x y : A) (l : list A) : In x (l ++ [y]) ↔ In x l ∨ x = y.
Proof. rewrite in_app_iff. simpl. intuition. Qed.

Lemma scrape_locals (argv : list jsstring) :
  let v := for_each argv (Scrape.on_arg resolve argv) (Scrape.initial resolve) in
  at_least 1 (Scrape.l_limit v)
  ∧ at_least 0 (Scrape.l_requestDelayMs v)
  ∧ (Scrape.l_mode v = Scrape.live ↔ In (str "--live") argv)
  ∧ (Scrape.l_isLiveMode v = true ↔ In (str "--live") argv)
  ∧ (Scrape.l_headless v = false ↔ In (str "--headed") argv).
Proof.
  apply (for_each_invariant
           (fun seen v =>
              at_least 1 (Scrape.l_limit v)
              ∧ at_least 0 (Scrape.l_requestDelayMs v)
              ∧ (Scrape.l_mode v = Scrape.live ↔ In (str "--live") seen)
              ∧ (Scrape.l_isLiveMode v = true ↔ In (str "--live") seen)
              ∧ (Scrape.l_headless v = false ↔ In (str "--headed") seen))).
  - intros seen arg v (Hlim & Hdelay & Hmode & Hlive & Hhead).
    unfold Scrape.on_arg. rewrite !in_snoc.
    assert (∀ flag, is_flag flag arg = false → str flag ≠ arg) as Hoff.
    { intros flag Hflag <-. unfold is_flag in Hflag.
      by rewrite bool_decide_eq_true_2 in Hflag. }
    destruct (is_flag "--live" arg) eqn:Hl;
      [apply is_flag_true in Hl|apply Hoff in Hl];
      (destruct (is_flag "--headed" arg) eqn:Hh;
       [apply is_flag_true in Hh|apply Hoff in Hh]);
      try (rewrite Hl in Hh; by vm_compute in Hh);
      (destruct (next argv (length seen)) as [value|];
       [destruct (is_flag "--sample" _), (is_flag "--limit" _),
                 (is_flag "--out" _), (is_flag "--delay" _)|]);
      simpl;
      (split; [try done; by apply numeric_option_at_least|]);
      (split; [try done; by apply numeric_option_at_least|]);
      intuition congruence.
  - simpl. split; [exists 20%Z; split; [done|lia]|].
    split; [exists 300%Z; split; [done|lia]|]. intuition congruence.
Qed.

Lemma not_lt_at_least (x : number) (z : Z) (least : Z) :
  at_least least x → number_lt x (Finite (inject_Z z)) = false → at_least z x.
Proof.
  destruct x as [|[]|q]; simpl; try done.
  intros (n & -> & _) Hlt. exists n. split; [done|].
  apply negb_false_iff, Qle_bool_iff in Hlt. by rewrite Zle_Qle.
Qed.

(** The options of the deck scraper: the limit is a whole number that is
    at least 1, or plus infinity, and at least 20 in live mode; the delay
    is at least 0; the mode is live exactly when some argument is
    [--live], and the browser is shown exactly when some argument is
    [--headed]; the warning is written exactly when the mode is live and
    the limit asked is below 20. *)
Theorem scrape_options (argv : list jsstring) :
  let o := fst (Scrape.parseCliArgs resolve argv) in
  at_least 1 (Scrape.limit o)
  ∧ (Scrape.mode o = Scrape.live → at_least 20 (Scrape.limit o))
  ∧ at_least 0 (Scrape.requestDelayMs o)
  ∧ (Scrape.mode o = Scrape.live ↔ In (str "--live") argv)
  ∧ (Scrape.headless o = false ↔ In (str "--headed") argv)
  ∧ (snd (Scrape.parseCliArgs resolve argv) ≠ []
     → Scrape.mode o = Scrape.live ∧ Scrape.limit o = Finite 20).
Proof.
  destruct (scrape_locals argv) as (Hlim & Hdelay & Hmode & Hlive & Hhead).
  unfold Scrape.parseCliArgs. simpl.
  set (v := for_each argv (Scrape.on_arg resolve argv) (Scrape.initial resolve)) in *.
  destruct (Scrape.l_isLiveMode v) eqn:Hl; simpl.
  - destruct (number_lt (Scrape.l_limit v) (Finite 20)) eqn:Hlt; simpl.
    + split; [exists 20%Z; split; [done|lia]|].
      split; [intros _; exists 20%Z; split; [done|lia]|].
      split; [done|]. split; [done|]. split; [done|].
      intros _. split; [|done]. apply Hmode, Hlive. done.
    + split; [done|].
      split; [intros _; by apply (not_lt_at_least _ 20 1)|].
      split; [done|]. split; [done|]. split; [done|]. by intros [].
  - split; [done|]. split.
    + intros Hm. apply Hmode, Hlive in Hm. congruence.
    + split; [done|]. split; [done|]. split; [done|]. by intros [].
Qed.

End ScrapeArgs.

(** *** The inventory scraper *)

Section InventoryArgs.
Context `{Host}.
Variable resolve : jsstring → jsstring.
Variable env_user : option jsstring.

Lemma inventory_locals (argv : list jsstring) :
  let o := for_each argv (Inventory.on_arg resolve argv)
             (Inventory.initial resolve env_user) in
  at_least 0 (Inventory.delayMs o)
  ∧ at_least 0 (Inventory.maxPages o)
  ∧ (¬ In (str "--user") argv → Inventory.username o = default [] env_user).
Proof.
  apply (for_each_invariant
           (fun seen o =>
              at_least 0 (Inventory.delayMs o)
              ∧ at_least 0 (Inventory.maxPages o)
              ∧ (¬ In (str "--user") seen
                 → Inventory.username o = default [] env_user))).
  - intros seen arg o (Hdelay & Hpages & Huser).
    unfold Inventory.on_arg. rewrite !in_snoc.
    assert (∀ flag, is_flag flag arg = false → str flag ≠ arg) as Hoff.
    { intros flag Hflag <-. unfold is_flag in Hflag.
      by rewrite bool_decide_eq_true_2 in Hflag. }
    destruct (is_flag "--user" arg) eqn:Hu;
      [apply is_flag_true in Hu|apply Hoff in Hu];
      (destruct (next argv (length seen)) as [value|];
       [destruct (is_flag "--headed" _), (is_flag "--out" _),
                 (is_flag "--delay" _), (is_flag "--pages" _)
       |destruct (is_flag "--headed" _)]);
      simpl;
      (split; [try done; by apply numeric_option_at_least|]);
      (split; [try done; by apply numeric_option_at_least|]);
      intuition congruence.
  - simpl. split; [exists 250%Z; split; [done|lia]|].
    split; [exists 0%Z; split; [done|lia]|]. done.
Qed.

(** The options of the inventory scraper, when it does not throw: the
    user name is not empty, the delay and the number of pages are whole
    numbers that are at least 0, or plus infinity.  Without a [--user]
    argument the name is that of the environment, and the tool throws
    exactly when the environment gives none, or an empty one. *)
Theorem inventory_options (argv : list jsstring) :
  (∀ o, Inventory.parseCliArgs resolve env_user argv = inr o →
        Inventory.username o ≠ []
        ∧ at_least 0 (Inventory.delayMs o)
        ∧ at_least 0 (Inventory.maxPages o))
  ∧ (¬ In (str "--user") argv →
     (Inventory.parseCliArgs resolve env_user argv = inl Inventory.missing_username
      ↔ default [] env_user = [])).
Proof.
  destruct (inventory_locals argv) as (Hdelay & Hpages & Huser).
  unfold Inventory.parseCliArgs.
  set (v := for_each argv (Inventory.on_arg resolve argv)
              (Inventory.initial resolve env_user)) in *.
  split.
  - intros o. destruct (Inventory.username v) as [|c u] eqn:Hu; simpl; [done|].
    intros [= <-]. rewrite Hu. by repeat split.
  - intros Hno. rewrite <- (Huser Hno).
    destruct (Inventory.username v); simpl; by split.
Qed.

End InventoryArgs.

(** *** [loadInventory] *)

Section Load.
Context `{Host}.

Lemma no_entries_iff_empty (m : gmap jsstring Z) :
  (length (map_to_list m) =? 0)%nat = true ↔ m = ∅.
Proof.
  rewrite Nat.eqb_eq. split.
  - intros Hl. apply map_to_list_empty_iff. by destruct (map_to_list m).
  - intros ->. by rewrite map_to_list_empty.
Qed.

Lemma contributions_nil (items : list json) :
  (∀ k, contributions items k = []) ↔ Forall (fun item => record_entry item = None) items.
Proof.
  induction items as [|item items IH].
  - split; [constructor|done].
  - split.
    + intros Hall. constructor.
      * destruct (record_entry item) as [[nm z]|] eqn:He; [|done].
        specialize (Hall nm). unfold contributions in Hall. simpl in Hall.
        rewrite He, decide_True in Hall by done. done.
      * apply IH. intros k. specialize (Hall k).
        unfold contributions in Hall. simpl in Hall.
        by apply app_eq_nil in Hall as [_ ?].
    + intros Hall k. inversion Hall as [|? ? He Hrest]; subst.
      unfold contributions. simpl. rewrite He. simpl.
      by apply IH.
Qed.


End Load.

End CliProperties.
